(** * Booster: the source subsystem

    A shallow embedding of the Go packages [core] (ring.go), [store]
    (store.go) and of the policy constructors, followed by the properties
    proved about them.

    Conventions of the embedding:
    - a Go [string] is a [string], a Go [int] is a [Z], a slice is a [list]
      (a nil slice and an empty slice are the same list; no function below
      tells them apart except through [len] and [range], which agree);
    - a Go pointer into a linked structure is an index into an explicit
      memory of nodes, [None] being the nil pointer;
    - a method with a pointer receiver takes the receiver's state and
      returns the new state;
    - an operation that can dereference nil returns in the [go] monad,
      whose [panic] is the run-time panic. *)

From Stdlib Require Import List String ZArith Bool Arith Lia.
Import ListNotations.
Local Open Scope string_scope.
Local Open Scope list_scope.

(** ** Results of operations that may panic *)

Inductive go (A : Type) : Type :=
| ret (a : A)
| panic.
Arguments ret {A} a.
Arguments panic {A}.

Definition bind {A B : Type} (c : go A) (k : A -> go B) : go B :=
  match c with
  | ret a => k a
  | panic => panic
  end.

Notation "x <- c ;; k" := (bind c (fun x => k))
  (at level 61, c at next level, right associativity).

(** [iter_go n f a] runs [f] [n] times, stopping at the first panic. *)
Fixpoint iter_go {A : Type} (n : nat) (f : A -> go A) (a : A) : go A :=
  match n with
  | O => ret a
  | S n' => a' <- f a ;; iter_go n' f a'
  end.

(** ** Package core *)

Module core.

(** [core.Source] is an interface; the store and the ring only ever call
    [Name()] on it.  [addr] stands for the identity of the Go object behind
    the interface value, so that two sources may share a name. *)
Record Source : Type := mkSource {
  Name : string;
  addr : nat
}.

(** The dynamic value held by a ring node ([interface{}]): nil, a value that
    implements [Source], or a value of some other type. *)
Inductive any : Type :=
| any_nil
| any_Source (s : Source)
| any_other (z : Z).

End core.

(** ** The standard library's container/ring, as far as [core.Ring] uses it *)

Module container_ring.
Import core.

(** [type Ring struct { next, prev *Ring; Value any }] *)
Record node : Type := mkNode {
  next : option nat;
  prev : option nat;
  Value : any
}.

Definition mem : Type := list node.
Definition ptr : Type := option nat.

Definition set_Value (nd : node) (v : any) : node :=
  mkNode (next nd) (prev nd) v.

(** In-place update of the node at address [a]. *)
Fixpoint update (m : mem) (a : nat) (f : node -> node) : mem :=
  match m, a with
  | [], _ => []
  | nd :: m', O => f nd :: m'
  | nd :: m', S a' => nd :: update m' a' f
  end.

(** [func New(n int) *Ring]: nil when [n <= 0]; otherwise [n] fresh nodes,
    node [i] linked forward to node [i+1] and the last one back to the
    first, which is the one returned. *)
Definition New (n : Z) : mem * ptr :=
  if (n <=? 0)%Z then ([], None)
  else
    let k := Z.to_nat n in
    (map (fun i => mkNode (Some (S i mod k)) (Some ((i + k - 1) mod k)) any_nil)
         (seq 0 k),
     Some 0).

(** [func (r *Ring) init() *Ring] *)
Definition init (m : mem) (a : nat) : mem :=
  update m a (fun nd => mkNode (Some a) (Some a) (Value nd)).

(** [func (r *Ring) Next() *Ring]:
    [if r.next == nil { return r.init() }; return r.next] *)
Definition Next (m : mem) (r : ptr) : go (mem * ptr) :=
  match r with
  | None => panic
  | Some a =>
    match nth_error m a with
    | None => panic
    | Some nd =>
      match next nd with
      | None => ret (init m a, Some a)
      | Some b => ret (m, Some b)
      end
    end
  end.

(** [func (r *Ring) Prev() *Ring]:
    [if r.next == nil { return r.init() }; return r.prev] *)
Definition Prev (m : mem) (r : ptr) : go (mem * ptr) :=
  match r with
  | None => panic
  | Some a =>
    match nth_error m a with
    | None => panic
    | Some nd =>
      match next nd with
      | None => ret (init m a, Some a)
      | Some _ => ret (m, prev nd)
      end
    end
  end.

(** The loop of [Do]: [for p := r.Next(); p != r; p = p.next { f(p.Value) }],
    with [acc] the values handed to [f] so far.  The loop runs as long as
    the links do not lead back to [r]; [fuel] bounds the number of turns,
    and [None] is the answer when it runs out. *)
Fixpoint Do_loop (fuel : nat) (m : mem) (r : nat) (p : ptr) (acc : list any)
  : option (go (list any)) :=
  match p with
  | None => Some panic
  | Some a =>
    if Nat.eqb a r then Some (ret acc)
    else
      match fuel with
      | O => None
      | S fuel' =>
        match nth_error m a with
        | None => Some panic
        | Some nd => Do_loop fuel' m r (next nd) (acc ++ [Value nd])
        end
      end
  end.

(** [func (r *Ring) Do(f func(any))]: nothing on the nil ring; otherwise
    [f(r.Value)] and then the loop.  The result is the memory ([Next] may
    initialise a node) and the values handed to [f], in order; [f] is
    taken not to touch the ring. *)
Definition Do (fuel : nat) (m : mem) (r : ptr)
  : option (go (mem * list any)) :=
  match r with
  | None => Some (ret (m, []))
  | Some a =>
    match nth_error m a with
    | None => Some panic
    | Some nd =>
      match Next m r with
      | panic => Some panic
      | ret (m', p) =>
        match Do_loop fuel m' a p [Value nd] with
        | None => None
        | Some panic => Some panic
        | Some (ret l) => Some (ret (m', l))
        end
      end
    end
  end.

Definition set_next (q : ptr) (nd : node) : node :=
  mkNode q (prev nd) (Value nd).
Definition set_prev (q : ptr) (nd : node) : node :=
  mkNode (next nd) q (Value nd).

(** An assignment [p.field = ...]: panics when [p] is nil. *)
Definition store (m : mem) (p : ptr) (f : node -> node) : go mem :=
  match p with
  | None => panic
  | Some a =>
    match nth_error m a with
    | None => panic
    | Some _ => ret (update m a f)
    end
  end.

(** [k] turns of [r = r.next] or [r = r.prev]. *)
Fixpoint walk (field : node -> ptr) (k : nat) (m : mem) (p : ptr) : go ptr :=
  match k with
  | O => ret p
  | S k' =>
    match p with
    | None => panic
    | Some a =>
      match nth_error m a with
      | None => panic
      | Some nd => walk field k' m (field nd)
      end
    end
  end.

(** [func (r *Ring) Move(n int) *Ring]:
    [if r.next == nil { return r.init() }], then [-n] steps backwards when
    [n < 0], [n] steps forwards when [n > 0]. *)
Definition Move (m : mem) (r : ptr) (n : Z) : go (mem * ptr) :=
  match r with
  | None => panic
  | Some a =>
    match nth_error m a with
    | None => panic
    | Some nd =>
      match next nd with
      | None => ret (init m a, Some a)
      | Some _ =>
        if (n <? 0)%Z then p <- walk prev (Z.to_nat (- n)) m r ;; ret (m, p)
        else if (0 <? n)%Z then p <- walk next (Z.to_nat n) m r ;; ret (m, p)
        else ret (m, r)
      end
    end
  end.

(** [func (r *Ring) Link(s *Ring) *Ring]:
    [n := r.Next(); if s != nil { p := s.Prev(); r.next = s; s.prev = r;
    n.prev = p; p.next = n }; return n] *)
Definition Link (m : mem) (r s : ptr) : go (mem * ptr) :=
  mn <- Next m r ;;
  let '(m1, n) := mn in
  match s with
  | None => ret (m1, n)
  | Some _ =>
    mp <- Prev m1 s ;;
    let '(m2, p) := mp in
    m3 <- store m2 r (set_next s) ;;
    m4 <- store m3 s (set_prev r) ;;
    m5 <- store m4 n (set_prev p) ;;
    m6 <- store m5 p (set_next n) ;;
    ret (m6, n)
  end.

(** [func (r *Ring) Unlink(n int) *Ring]:
    [if n <= 0 { return nil }; return r.Link(r.Move(n + 1))] *)
Definition Unlink (m : mem) (r : ptr) (n : Z) : go (mem * ptr) :=
  if (n <=? 0)%Z then ret (m, None)
  else
    ms <- Move m r (n + 1) ;;
    Link (fst ms) r (snd ms).

End container_ring.

(** ** core/ring.go *)

Module Ring.
Import core.

(** [type Ring struct { *ring.Ring }]: the embedded pointer, together with
    the memory of ring nodes it points into. *)
Record Ring : Type := mkRing {
  heap : container_ring.mem;
  cur : container_ring.ptr
}.

(** [func NewRing(n int) *Ring] *)
Definition NewRing (n : Z) : Ring :=
  let '(m, p) := container_ring.New n in mkRing m p.

(** [func (r *Ring) Source() Source]; [None] is the nil [Source]. *)
Definition Source (r : Ring) : go (option core.Source) :=
  match cur r with
  | None => panic
  | Some a =>
    match nth_error (heap r) a with
    | None => panic
    | Some nd =>
      match container_ring.Value nd with
      | any_Source v => ret (Some v)
      | _ => ret None
      end
    end
  end.

(** [func (r *Ring) Set(s Source)]: a nil [Source] stored in the
    [interface{}] field is the nil interface value. *)
Definition Set_ (s : option core.Source) (r : Ring) : go Ring :=
  match cur r with
  | None => panic
  | Some a =>
    match nth_error (heap r) a with
    | None => panic
    | Some _ =>
      let v := match s with Some x => any_Source x | None => any_nil end in
      ret (mkRing
             (container_ring.update (heap r) a
                (fun nd => container_ring.set_Value nd v))
             (cur r))
    end
  end.

(** [func (r *Ring) Next() *Ring] *)
Definition Next (r : Ring) : go Ring :=
  mp <- container_ring.Next (heap r) (cur r) ;;
  ret (mkRing (fst mp) (snd mp)).

(** [func (r *Ring) Prev() *Ring] *)
Definition Prev (r : Ring) : go Ring :=
  mp <- container_ring.Prev (heap r) (cur r) ;;
  ret (mkRing (fst mp) (snd mp)).

(** [func NewRingSources(ss ...Source) *Ring] *)
Definition NewRingSources (ss : list (option core.Source)) : go Ring :=
  fold_left
    (fun (acc : go Ring) (v : option core.Source) =>
       r <- acc ;; r1 <- Set_ v r ;; Next r1)
    ss
    (ret (NewRing (Z.of_nat (List.length ss)))).

(** The argument [Do] hands to [f] for a value of the ring: the source,
    or nil when the value is not a [Source]. *)
Definition as_Source (v : any) : option core.Source :=
  match v with
  | any_Source s => Some s
  | _ => None
  end.

(** [func (r *Ring) Do(f func(Source))]: the ring afterwards and the
    arguments of the calls of [f], in order. *)
Definition Do (fuel : nat) (r : Ring)
  : option (go (Ring * list (option core.Source))) :=
  match container_ring.Do fuel (heap r) (cur r) with
  | None => None
  | Some panic => Some panic
  | Some (ret (m, l)) => Some (ret (mkRing m (cur r), map as_Source l))
  end.

(** [func (r *Ring) Link(s *Ring) *Ring]: [r.Ring = r.Ring.Link(s.Ring)].
    The other ring lives in the same memory as the receiver; [s] is its
    embedded pointer. *)
Definition Link (s : container_ring.ptr) (r : Ring) : go Ring :=
  mp <- container_ring.Link (heap r) (cur r) s ;;
  ret (mkRing (fst mp) (snd mp)).

(** [func (r *Ring) Unlink(n int) *Ring]: [&Ring{r.Ring.Unlink(n)}].  The
    receiver keeps its pointer; the result is a new ring on the same
    memory.  The pair is the receiver and the result. *)
Definition Unlink (n : Z) (r : Ring) : go (Ring * Ring) :=
  mp <- container_ring.Unlink (heap r) (cur r) n ;;
  ret (mkRing (fst mp) (cur r), mkRing (fst mp) (snd mp)).

(** What the links of a memory say: the node after and the node before
    the node at [a], and its value. *)
Definition nxt (m : container_ring.mem) (a : nat) : option nat :=
  match nth_error m a with
  | Some nd => container_ring.next nd
  | None => None
  end.

Definition prv (m : container_ring.mem) (a : nat) : option nat :=
  match nth_error m a with
  | Some nd => container_ring.prev nd
  | None => None
  end.

Definition val (m : container_ring.mem) (a : nat) : any :=
  match nth_error m a with
  | Some nd => container_ring.Value nd
  | None => any_nil
  end.

(** [seg m a l b]: from node [a] the forward links lead through the nodes
    [l] to [b], and the backward links lead back. *)
Fixpoint seg (m : container_ring.mem) (a : nat) (l : list nat) (b : nat)
  : Prop :=
  match l with
  | [] => nxt m a = Some b /\ prv m b = Some a
  | x :: l' => nxt m a = Some x /\ prv m x = Some a /\ seg m x l' b
  end.

(** The nodes [a :: l], all different, form a ring. *)
Definition cycle (m : container_ring.mem) (a : nat) (l : list nat) : Prop :=
  NoDup (a :: l) /\ seg m a l a.

(** The shape [ring.New] gives to a memory of [k] nodes: node [i] points
    forward to node [i+1] and back to node [i-1], around the ring. *)
Definition linked (k : nat) (m : container_ring.mem) : Prop :=
  List.length m = k /\
  forall i nd, nth_error m i = Some nd ->
    container_ring.next nd = Some (S i mod k) /\
    container_ring.prev nd = Some ((i + k - 1) mod k).

(** A ring of [k] linked nodes whose cursor is on node [c]. *)
Definition at_node (k : nat) (r : Ring) (c : nat) : Prop :=
  linked k (heap r) /\ cur r = Some c /\ c < k.

(** The dynamic value [Set] stores for a (possibly nil) source. *)
Definition as_any (s : option core.Source) : any :=
  match s with Some x => any_Source x | None => any_nil end.

End Ring.

(** ** The policies (package store) *)

Module policy.

(** [const ( PolicyCodeBlock int = iota + 1; PolicyCodeReserve;
    PolicyCodeStick )] *)
Definition PolicyCodeBlock : Z := 0 + 1.
Definition PolicyCodeReserve : Z := 1 + 1.
Definition PolicyCodeStick : Z := 2 + 1.

Record basePolicy : Type := mkBase {
  Name : string;
  Reason : string;
  Issuer : string;
  Code : Z;
  Desc : string
}.

(** [func (p basePolicy) ID() string] *)
Definition ID (p : basePolicy) : string := Name p.

Module GenPolicy.
Record t : Type := mk {
  base : basePolicy;
  Name : string;
  AcceptFunc : string -> string -> bool
}.
Definition ID (p : t) : string := Name p.
Definition Accept (p : t) (id target : string) : bool := AcceptFunc p id target.
End GenPolicy.

Module BlockPolicy.
Record t : Type := mk {
  base : basePolicy;
  SourceID : string
}.
(** [return id != p.SourceID] *)
Definition Accept (p : t) (id target : string) : bool :=
  negb (id =? SourceID p).
End BlockPolicy.

(** [func NewBlockPolicy(issuer, sourceID string) *BlockPolicy] *)
Definition NewBlockPolicy (issuer sourceID : string) : BlockPolicy.t :=
  BlockPolicy.mk
    (mkBase ("block_" ++ sourceID)%string "" issuer PolicyCodeBlock
            ("source " ++ sourceID ++ " will no longer be used")%string)
    sourceID.

Module ReservedPolicy.
Record t : Type := mk {
  base : basePolicy;
  SourceID : string;
  Target : string
}.
(** [if id == p.SourceID { return target == p.Target }; return true] *)
Definition Accept (p : t) (id target : string) : bool :=
  if id =? SourceID p then target =? Target p else true.
End ReservedPolicy.

(** [func NewReservedPolicy(issuer, sourceID, target string) *ReservedPolicy] *)
Definition NewReservedPolicy (issuer sourceID target : string)
  : ReservedPolicy.t :=
  ReservedPolicy.mk
    (mkBase ("reserve_" ++ sourceID ++ "_for_" ++ target)%string "" issuer
            PolicyCodeReserve
            ("source " ++ sourceID ++
             " will only be used for connections to " ++ target)%string)
    sourceID target.

Module AvoidPolicy.
Record t : Type := mk {
  base : basePolicy;
  SourceID : string;
  Target : string
}.
(** [if target == p.Target { return id != p.SourceID }; return true] *)
Definition Accept (p : t) (id target : string) : bool :=
  if target =? Target p then negb (id =? SourceID p) else true.
End AvoidPolicy.

(** [func NewAvoidPolicy(issuer, sourceID, target string) *AvoidPolicy] *)
Definition NewAvoidPolicy (issuer sourceID target : string) : AvoidPolicy.t :=
  AvoidPolicy.mk
    (mkBase ("avoid_" ++ sourceID ++ "_for_" ++ target)%string "" issuer
            PolicyCodeReserve
            ("source " ++ sourceID ++
             " will not be used for connections to " ++ target)%string)
    sourceID target.

(** [type HistoryQueryFunc func(string) (string, bool)] *)
Definition HistoryQueryFunc : Type := string -> string * bool.

Module StickyPolicy.
Record t : Type := mk {
  base : basePolicy;
  BindHistory : HistoryQueryFunc
}.
(** [if hid, ok := p.BindHistory(target); ok { return id == hid };
    return true] *)
Definition Accept (p : t) (id target : string) : bool :=
  let '(hid, ok) := BindHistory p target in
  if ok then id =? hid else true.
End StickyPolicy.

(** [func NewStickyPolicy(issuer string, f HistoryQueryFunc) *StickyPolicy] *)
Definition NewStickyPolicy (issuer : string) (f : HistoryQueryFunc)
  : StickyPolicy.t :=
  StickyPolicy.mk
    (mkBase "stick" "" issuer PolicyCodeStick
            "once a source receives a connection to a target, the following connections to the same target will be assigned to the same source")
    f.

End policy.

(** ** Go slices: [make] with length zero, and [copy] *)

(** [make([]T, 0, cap)]: a slice of length 0; the capacity only reserves
    room for later [append]s. *)
Definition make0 {A : Type} (cap : nat) : list A := [].

(** [copy(dst, src)] copies [min(len(dst), len(src))] elements over the
    front of [dst] and leaves the length of [dst] as it is. *)
Definition copy {A : Type} (dst src : list A) : list A :=
  let n := Nat.min (List.length dst) (List.length src) in
  firstn n src ++ skipn n dst.

(** ** store/store.go *)

Module store.
Import core.

(** The interface [Store]: [Put], [Del], [Len] and [Do].  [Do st] is the
    sequence of sources on which [Do] calls its argument, in order. *)
Module Store.
Class Store (T : Type) : Type := {
  Put : T -> list Source -> T;
  Del : T -> list Source -> T;
  Len : T -> Z;
  Do : T -> list Source
}.
End Store.
Export Store(Store).

(** The names of the sources a store enumerates. *)
Definition names {T : Type} `{Store T} (st : T) : list string :=
  map Name (Store.Do st).

(** Modelled from the spec: the implementation of [Store] behind
    [protected] is not part of the sources; the specification describes it
    as a set of sources in which "membership is by name" and a "duplicate
    Put is idempotent on identity".  These are the laws an implementation
    is taken to satisfy. *)
Class StoreLaws (T : Type) `{Store T} : Prop := {
  Put_names : forall (st : T) (xs : list Source) (n : string),
    In n (names (Store.Put st xs)) <-> In n (names st) \/ In n (map Name xs);
  Del_names : forall (st : T) (xs : list Source) (n : string),
    In n (names (Store.Del st xs)) <-> In n (names st) /\ ~ In n (map Name xs)
}.

(** Some source of [l] is called [n]. *)
Definition has_name (n : string) (l : list Source) : bool :=
  existsb (fun x => Name x =? n) l.

(** Modelled from the spec: [Put] of a store that keeps its sources in a
    list, in insertion order; a source whose name is already stored is
    not added again ("duplicate Put is idempotent on identity"). *)
Definition list_Put (st xs : list Source) : list Source :=
  fold_left (fun acc x => if has_name (Name x) acc then acc else acc ++ [x])
            xs st.

(** Modelled from the spec: [Del] of the list store removes by name
    ("membership is by name"). *)
Definition list_Del (st xs : list Source) : list Source :=
  filter (fun s => negb (has_name (Name s) xs)) st.

(** Modelled from the spec: the list store, an implementation of the
    interface [Store] to run the source store on. *)
#[export] Instance ListStore : Store (list Source) := {|
  Store.Put := list_Put;
  Store.Del := list_Del;
  Store.Len := fun st => Z.of_nat (List.length st);
  Store.Do := fun st => st
|}.

(** [type Policy struct].  [Put] and [AddPolicy] keep a source out of the
    protected store when [Func] returns false on its name ([if
    !p.Func(src.Name())], "the source was not accepted by the policy"), so
    [Func name = true] is acceptance; the comment on the field words it
    the other way round, the code is followed here.  A [*Policy] is
    modelled by the policy it points to; the nil policy, on which every
    method would panic, is left out. *)
Record Policy : Type := mkPolicy {
  ID : string;
  Func : string -> bool;
  Reason : string;
  Code : Z
}.

(** [type DummySource struct].  [DSName] is the field [Name], [DSPolicy]
    the field [Policy]; every entry of [underPolicy] is built with a
    policy. *)
Record DummySource : Type := mkDummy {
  internal : Source;
  DSName : string;
  DSPolicy : Policy;
  Blocked : bool;
  Metrics : list (string * Z)
}.

Section SourceStore.
Context {T : Type} `{Store T}.

(** [type SourceStore struct] *)
Record SourceStore : Type := mkSourceStore {
  protected : T;
  Policies : list Policy;
  underPolicy : list DummySource
}.

(** [func New(store Store) *SourceStore] *)
Definition New (st : T) : SourceStore := mkSourceStore st [] [].

(** [func (ss *SourceStore) GetAccepted() []core.Source] *)
Definition GetAccepted (ss : SourceStore) : list Source :=
  fold_left (fun acc src => acc ++ [src]) (Store.Do (protected ss))
            (make0 (Z.to_nat (Store.Len (protected ss)))).

(** [func (ss *SourceStore) AddPolicy(p *Policy)] *)
Definition AddPolicy (p : Policy) (ss : SourceStore) : SourceStore :=
  let policies := Policies ss ++ [p] in
  (* the sources of the protected store that the new policy turns down *)
  let acc :=
    fold_left (fun acc src => if negb (Func p (Name src)) then acc ++ [src]
                              else acc)
              (Store.Do (protected ss))
              (make0 (Z.to_nat (Store.Len (protected ss)))) in
  let prot := Store.Del (protected ss) acc in
  let up :=
    fold_left (fun up v => up ++ [mkDummy v "" p true []]) acc
              (underPolicy ss) in
  mkSourceStore prot policies up.

(** The search loop of [DelPolicy]: the index of the first policy whose
    [ID] is [id]. *)
Fixpoint find_policy (id : string) (ps : list Policy) (i : nat) : option nat :=
  match ps with
  | [] => None
  | v :: ps' => if ID v =? id then Some i else find_policy id ps' (S i)
  end.

(** [func (ss *SourceStore) DelPolicy(id string)] *)
Definition DelPolicy (id : string) (ss : SourceStore) : SourceStore :=
  match find_policy id (Policies ss) 0 with
  | None => ss
  | Some j =>
    let policies := firstn j (Policies ss) ++ skipn (S j) (Policies ss) in
    let '(prot, acc) :=
      fold_left
        (fun (st : T * list DummySource) v =>
           if ID (DSPolicy v) =? id
           then (Store.Put (fst st) [internal v], snd st)
           else (fst st, snd st ++ [v]))
        (underPolicy ss)
        (protected ss, make0 (List.length (underPolicy ss))) in
    mkSourceStore prot policies acc
  end.

(** The closure [f] of [Put]: the first policy that turns [src] down. *)
Fixpoint Put_f (ps : list Policy) (src : Source) : option Policy * bool :=
  match ps with
  | [] => (None, true)
  | v :: ps' => if negb (Func v (Name src)) then (Some v, false)
                else Put_f ps' src
  end.

(** [func (ss *SourceStore) Put(sources ...core.Source)] *)
Definition Put (sources : list Source) (ss : SourceStore) : SourceStore :=
  let '(acc, up) :=
    fold_left
      (fun (st : list Source * list DummySource) v =>
         match Put_f (Policies ss) v with
         | (_, true) => (fst st ++ [v], snd st)
         | (Some p, false) =>
           (fst st, snd st ++ [mkDummy v (Name v) p true []])
         | (None, false) => st
         end)
      sources
      (make0 (List.length sources), make0 (List.length sources)) in
  mkSourceStore (Store.Put (protected ss) acc) (Policies ss)
                (underPolicy ss ++ up).

(** The closure [f] of [Del]: false when one of [sources] has the name
    recorded in [src]. *)
Fixpoint Del_f (sources : list Source) (src : DummySource) : bool :=
  match sources with
  | [] => true
  | v :: sources' => if Name v =? DSName src then false
                     else Del_f sources' src
  end.

(** [func (ss *SourceStore) Del(sources ...core.Source)] *)
Definition Del (sources : list Source) (ss : SourceStore) : SourceStore :=
  let prot := Store.Del (protected ss) sources in
  let up :=
    fold_left (fun up v => if Del_f sources v then up ++ [v] else up)
              (underPolicy ss)
              (make0 (List.length (underPolicy ss))) in
  mkSourceStore prot (Policies ss) up.

(** [func (ss *SourceStore) GetPoliciesSnapshot() []*Policy] *)
Definition GetPoliciesSnapshot (ss : SourceStore) : list Policy :=
  let acc := make0 (List.length (Policies ss)) in
  copy acc (Policies ss).

End SourceStore.
Arguments SourceStore T : clear implicits.

(** *** Sequences of mutations and the properties stated about them *)

Inductive op : Type :=
| OpPut (sources : list Source)
| OpDel (sources : list Source)
| OpAddPolicy (p : Policy)
| OpDelPolicy (id : string).

Section Properties.
Context {T : Type} `{Store T}.

Definition apply_op (ss : SourceStore T) (o : op) : SourceStore T :=
  match o with
  | OpPut sources => Put sources ss
  | OpDel sources => Del sources ss
  | OpAddPolicy p => AddPolicy p ss
  | OpDelPolicy id => DelPolicy id ss
  end.

Definition run (ops : list op) (ss : SourceStore T) : SourceStore T :=
  fold_left apply_op ops ss.

(** Membership is by name, in the protected store and in [underPolicy]
    alike; an entry of [underPolicy] stands for the source it keeps in
    [internal]. *)
Definition in_protected (ss : SourceStore T) (s : Source) : Prop :=
  In (Name s) (names (protected ss)).

Definition in_underPolicy (ss : SourceStore T) (s : Source) : Prop :=
  exists e, In e (underPolicy ss) /\ Name (internal e) = Name s.

Definition held (ss : SourceStore T) (s : Source) : Prop :=
  in_protected ss s \/ in_underPolicy ss s.

(** Every policy of the store lets [s] through. *)
Definition accepted (ss : SourceStore T) (s : Source) : Prop :=
  forall p, In p (Policies ss) -> Func p (Name s) = true.

(** P1: a source the store holds is protected exactly when every policy
    accepts it. *)
Definition P1 (ss : SourceStore T) : Prop :=
  forall s, held ss s -> (in_protected ss s <-> accepted ss s).

(** P2: no name is both protected and under policy. *)
Definition P2 (ss : SourceStore T) : Prop :=
  forall s, ~ (in_protected ss s /\ in_underPolicy ss s).

(** Restoration through the policies: after [DelPolicy] of the tag of an
    entry, the entry's source is protected exactly when the remaining
    policies accept it. *)
Definition restored_iff_accepted (ss : SourceStore T) : Prop :=
  forall e, In e (underPolicy ss) ->
    let ss' := DelPolicy (ID (DSPolicy e)) ss in
    in_protected ss' (internal e) <-> accepted ss' (internal e).

(** [Del] of a source leaves nothing of that name behind. *)
Definition Del_clears (ss : SourceStore T) (s : Source) : Prop :=
  let ss' := Del [s] ss in
  ~ in_protected ss' s /\ ~ in_underPolicy ss' s.

(** What every mutation keeps true, provided nothing rejected is put
    back: the protected names are accepted by every policy, and every
    entry under policy is tagged with a policy of the store that rejects
    the source it keeps. *)
Definition Inv (ss : SourceStore T) : Prop :=
  (forall n, In n (names (protected ss)) ->
     forall p, In p (Policies ss) -> Func p n = true)
  /\
  (forall e, In e (underPolicy ss) ->
     In (DSPolicy e) (Policies ss) /\
     Func (DSPolicy e) (Name (internal e)) = false).

(** What the entries under policy look like, whatever the mutations:
    each is marked blocked, carries no metrics, is tagged with a policy
    of the store that rejects the source it keeps, and records either
    that source's name or no name at all. *)
Definition well_tagged (ss : SourceStore T) : Prop :=
  forall e, In e (underPolicy ss) ->
    Blocked e = true /\ Metrics e = [] /\
    In (DSPolicy e) (Policies ss) /\
    Func (DSPolicy e) (Name (internal e)) = false /\
    (DSName e = "" \/ DSName e = Name (internal e)).

(** [DelPolicy id] restores only sources that the remaining policies
    accept. *)
Definition restores_accepted (id : string) (ss : SourceStore T) : bool :=
  match find_policy id (Policies ss) 0 with
  | None => true
  | Some j =>
    let rest := firstn j (Policies ss) ++ skipn (S j) (Policies ss) in
    forallb
      (fun e => negb (ID (DSPolicy e) =? id)
                || forallb (fun p => Func p (Name (internal e))) rest)
      (underPolicy ss)
  end.

(** A sequence of mutations in which every [DelPolicy] restores only
    sources that the remaining policies accept. *)
Fixpoint guarded (ops : list op) (ss : SourceStore T) : bool :=
  match ops with
  | [] => true
  | o :: ops' =>
    match o with
    | OpDelPolicy id => restores_accepted id ss
    | _ => true
    end && guarded ops' (apply_op ss o)
  end.

End Properties.

End store.

(** ** Sample sources and policies *)

Module sample.
Import core store.

Definition srcA : Source := mkSource "A" 1.
Definition srcB : Source := mkSource "B" 2.

(** Two policies that block the source called A, under different ids, and
    one that lets everything through. *)
Definition blockA : Policy :=
  mkPolicy "x" (fun name => negb (name =? "A")) "first" 1.
Definition blockA' : Policy :=
  mkPolicy "y" (fun name => negb (name =? "A")) "second" 1.

Definition empty : SourceStore (list Source) := New [].

(** A is put while both blocking policies are installed. *)
Definition blocked_twice : SourceStore (list Source) :=
  run [OpAddPolicy blockA; OpAddPolicy blockA'; OpPut [srcA]] empty.

(** A is put first and swept out of the protected store by [AddPolicy]. *)
Definition swept : SourceStore (list Source) :=
  run [OpPut [srcA]; OpAddPolicy blockA] empty.

(** One policy, two sources. *)
Definition one_policy : SourceStore (list Source) :=
  run [OpAddPolicy blockA; OpPut [srcA; srcB]] empty.

(** Two policies under one id: the first lets everything through, the
    second blocks the source called B. *)
Definition passAll : Policy :=
  mkPolicy "x" (fun _ => true) "first" 1.
Definition blockB : Policy :=
  mkPolicy "x" (fun name => negb (name =? "B")) "second" 1.

(** B is put while both are installed: it is filed under [blockB]. *)
Definition same_id : SourceStore (list Source) :=
  run [OpAddPolicy passAll; OpAddPolicy blockB; OpPut [srcB]] empty.

(** Two sources, no policy. *)
Definition two_sources : SourceStore (list Source) :=
  run [OpPut [srcA; srcB]] empty.

End sample.

(** * Properties *)

(** ** Policies *)

Section PolicyFacts.
Import policy.

(** C6. A policy built by [NewReservedPolicy] for source [S] and target [T]
    accepts [(id, target)] exactly when [id] differs from [S] or [target]
    is [T]. *)
Theorem ReservedPolicy_Accept_iff (issuer S T id target : string) :
  ReservedPolicy.Accept (NewReservedPolicy issuer S T) id target = true
  <-> id <> S \/ target = T.
Proof.
  unfold ReservedPolicy.Accept, NewReservedPolicy; simpl.
  destruct (String.eqb_spec id S) as [e | ne].
  - destruct (String.eqb_spec target T) as [e' | ne'].
    + split; auto.
    + split; [discriminate | intros [h | h]; contradiction].
  - split; auto.
Qed.

(** C7. The codes set by the constructors: 1 for block, 2 for reserve, 2
    for avoid and 3 for sticky. *)
Theorem constructor_codes (issuer sourceID target : string)
                          (f : HistoryQueryFunc) :
  Code (BlockPolicy.base (NewBlockPolicy issuer sourceID)) = 1%Z
  /\ Code (ReservedPolicy.base (NewReservedPolicy issuer sourceID target)) = 2%Z
  /\ Code (AvoidPolicy.base (NewAvoidPolicy issuer sourceID target)) = 2%Z
  /\ Code (StickyPolicy.base (NewStickyPolicy issuer f)) = 3%Z.
Proof. repeat split. Qed.

End PolicyFacts.

(** ** The ring *)

Section RingFacts.
Import core Ring.

Lemma nth_error_update (m : container_ring.mem) (a : nat) f (i : nat) :
  nth_error (container_ring.update m a f) i =
  if Nat.eqb i a then option_map f (nth_error m i) else nth_error m i.
Proof.
  revert a i; induction m as [| nd m IH]; intros a i.
  - destruct a, i; simpl; try reflexivity; destruct (Nat.eqb i a); reflexivity.
  - destruct a as [| a], i as [| i]; simpl; try reflexivity.
    apply IH.
Qed.

Lemma length_update (m : container_ring.mem) (a : nat) f :
  List.length (container_ring.update m a f) = List.length m.
Proof.
  revert a; induction m as [| nd m IH]; intros [| a]; simpl; auto.
Qed.

Lemma New_at_node (n : Z) :
  (0 < n)%Z -> at_node (Z.to_nat n) (NewRing n) 0.
Proof.
  intros Hn. unfold NewRing, container_ring.New.
  destruct (Z.leb_spec n 0) as [Hle | _]; [lia |].
  assert (Hk : 0 < Z.to_nat n) by lia.
  set (k := Z.to_nat n) in *.
  split; [split | split]; simpl; auto.
  - now rewrite length_map, length_seq.
  - intros i nd E. rewrite nth_error_map, nth_error_seq in E.
    destruct (Nat.ltb i k); simpl in E; [| discriminate].
    injection E as <-. split; reflexivity.
Qed.

Lemma at_node_lookup (k : nat) (r : Ring) (c : nat) :
  at_node k r c ->
  exists nd, nth_error (heap r) c = Some nd /\
    container_ring.next nd = Some (S c mod k) /\
    container_ring.prev nd = Some ((c + k - 1) mod k).
Proof.
  intros [[Hlen Hlinks] [_ Hc]].
  destruct (nth_error (heap r) c) as [nd |] eqn:E.
  - exists nd; split; auto.
  - apply nth_error_None in E. lia.
Qed.

Lemma Next_at_node (k : nat) (r : Ring) (c : nat) :
  at_node k r c ->
  Next r = ret (mkRing (heap r) (Some (S c mod k))).
Proof.
  intros Hat. destruct (at_node_lookup _ _ _ Hat) as (nd & E & Hn & _).
  destruct Hat as (_ & Hcur & _).
  unfold Next, container_ring.Next. rewrite Hcur, E, Hn. reflexivity.
Qed.

Lemma Prev_at_node (k : nat) (r : Ring) (c : nat) :
  at_node k r c ->
  Prev r = ret (mkRing (heap r) (Some ((c + k - 1) mod k))).
Proof.
  intros Hat. destruct (at_node_lookup _ _ _ Hat) as (nd & E & Hn & Hp).
  destruct Hat as (_ & Hcur & _).
  unfold Prev, container_ring.Prev. rewrite Hcur, E, Hn, Hp. reflexivity.
Qed.

Lemma at_node_move (k : nat) (r : Ring) (c c' : nat) :
  at_node k r c -> c' < k -> at_node k (mkRing (heap r) (Some c')) c'.
Proof. intros (Hl & _ & _) Hc'. split; [exact Hl | split; simpl; auto]. Qed.

Lemma Set_at_node (k : nat) (r : Ring) (c : nat) (v : option core.Source) :
  at_node k r c ->
  exists r', Set_ v r = ret r' /\ at_node k r' c /\
    (forall i, nth_error (heap r') i =
       if Nat.eqb i c
       then option_map (fun nd => container_ring.set_Value nd (as_any v))
                       (nth_error (heap r) i)
       else nth_error (heap r) i).
Proof.
  intros Hat. destruct (at_node_lookup _ _ _ Hat) as (nd & E & _).
  destruct Hat as ((Hlen & Hlinks) & Hcur & Hc).
  unfold Set_. rewrite Hcur, E. eexists; split; [reflexivity |].
  split.
  - split; [split | split]; simpl; auto.
    + now rewrite length_update.
    + intros i nd0 E0. rewrite nth_error_update in E0.
      destruct (Nat.eqb i c); [| now apply Hlinks].
      destruct (nth_error (heap r) i) as [nd' |] eqn:E'; [| discriminate].
      injection E0 as <-. simpl. now apply Hlinks.
  - intros i; simpl. apply nth_error_update.
Qed.

Lemma at_node_eta (k : nat) (r : Ring) (c : nat) :
  at_node k r c -> mkRing (heap r) (Some c) = r.
Proof. intros (_ & Hcur & _). destruct r; simpl in *; now subst. Qed.

Lemma iter_Next_at_node (k : nat) (j : nat) (r : Ring) (c : nat) :
  at_node k r c ->
  iter_go j Next r = ret (mkRing (heap r) (Some ((c + j) mod k))).
Proof.
  revert r c; induction j as [| j IH]; intros r c Hat.
  - simpl. destruct Hat as (_ & Hcur & Hc).
    rewrite Nat.add_0_r, Nat.mod_small by assumption.
    destruct r; simpl in *; now subst.
  - simpl. rewrite (Next_at_node _ _ _ Hat). simpl.
    assert (Hk : S c mod k < k) by (apply Nat.mod_upper_bound; destruct Hat as (_ & _ & Hc); lia).
    rewrite (IH _ (S c mod k) (at_node_move _ _ _ _ Hat Hk)). simpl.
    rewrite Nat.Div0.add_mod_idemp_l.
    replace (S c + j) with (c + S j) by lia. reflexivity.
Qed.

Lemma Source_at_node (k : nat) (r : Ring) (c : nat) :
  at_node k r c -> exists v, Source r = ret v.
Proof.
  intros Hat. destruct (at_node_lookup _ _ _ Hat) as (nd & E & _).
  destruct Hat as (_ & Hcur & _).
  unfold Source. rewrite Hcur, E.
  destruct (container_ring.Value nd); eexists; reflexivity.
Qed.

Lemma Source_lookup (r : Ring) (c : nat) (nd : container_ring.node)
                     (v : option core.Source) :
  cur r = Some c -> nth_error (heap r) c = Some nd ->
  container_ring.Value nd = as_any v -> Source r = ret v.
Proof.
  intros Hcur E Hv. unfold Source. rewrite Hcur, E, Hv.
  destruct v; reflexivity.
Qed.

(** The loop of [NewRingSources], started on node [c] of a ring with room
    for the whole list before the ring closes: it ends on the node after
    the last one written, and has stored the list in the nodes from [c]
    on. *)
Lemma NewRingSources_loop (k : nat) (l : list (option core.Source)) :
  forall (r : Ring) (c : nat),
  at_node k r c -> c + List.length l <= k ->
  exists r',
    fold_left (fun acc v => r0 <- acc ;; r1 <- Set_ v r0 ;; Next r1) l (ret r)
      = ret r' /\
    at_node k r' ((c + List.length l) mod k) /\
    (forall i, i < c -> nth_error (heap r') i = nth_error (heap r) i) /\
    (forall i, i < List.length l ->
       exists nd, nth_error (heap r') (c + i) = Some nd /\
                  container_ring.Value nd = as_any (nth i l None)).
Proof.
  induction l as [| v l IH]; intros r c Hat Hroom; simpl in *.
  - exists r. rewrite Nat.add_0_r.
    destruct Hat as (Hl & Hcur & Hc). rewrite Nat.mod_small by assumption.
    split; [reflexivity |]. split; [split; [exact Hl | split; assumption] |].
    split; [reflexivity | intros i Hi; lia].
  - destruct (Set_at_node k r c v Hat) as (r1 & HSet & Hat1 & Hheap1).
    rewrite HSet. simpl. rewrite (Next_at_node _ _ _ Hat1). simpl.
    assert (Hck : c < k) by (destruct Hat as (_ & _ & Hc); exact Hc).
    destruct (at_node_lookup _ _ _ Hat) as (nd & End & _).
    assert (Hnd1 : nth_error (heap r1) c
                   = Some (container_ring.set_Value nd (as_any v))).
    { rewrite Hheap1, Nat.eqb_refl, End. reflexivity. }
    destruct (Nat.eq_dec (S c) k) as [Hlast | Hmore].
    + (* the ring closes here: nothing is left to store *)
      assert (l = []) by (destruct l; [reflexivity | simpl in Hroom; lia]).
      subst l. simpl.
      assert (H0 : S c mod k = 0) by (rewrite Hlast; apply Nat.Div0.mod_same).
      replace ((c + 1) mod k) with 0 by (rewrite Nat.add_1_r; auto).
      rewrite H0. eexists; split; [reflexivity |].
      split; [apply (at_node_move k r1 c 0 Hat1); lia |].
      split; simpl.
      * intros i Hi. rewrite Hheap1.
        destruct (Nat.eqb_spec i c); [lia | reflexivity].
      * intros i Hi. assert (i = 0) by lia. subst i.
        rewrite Nat.add_0_r. eexists; split; [exact Hnd1 | reflexivity].
    + assert (HS : S c mod k = S c) by (apply Nat.mod_small; lia).
      rewrite HS.
      assert (Hat2 : at_node k (mkRing (heap r1) (Some (S c))) (S c))
        by (apply (at_node_move k r1 c (S c) Hat1); lia).
      destruct (IH _ (S c) Hat2) as (r' & Hfold & Hat' & Hlow & Hvals);
        [lia |].
      exists r'. split; [exact Hfold |].
      replace (c + S (List.length l)) with (S c + List.length l) by lia.
      split; [exact Hat' |]. simpl in Hlow.
      split.
      * intros i Hi. rewrite Hlow by lia. rewrite Hheap1.
        destruct (Nat.eqb_spec i c); [lia | reflexivity].
      * intros [| i] Hi.
        -- rewrite Nat.add_0_r, Hlow by lia.
           eexists; split; [exact Hnd1 | reflexivity].
        -- replace (c + S i) with (S c + i) by lia. apply Hvals. lia.
Qed.

(** [NewRingSources] on a non-empty list returns a ring of as many nodes
    as sources, with the cursor back on the first source. *)
Lemma NewRingSources_at_node (ss : list (option core.Source)) :
  ss <> [] ->
  exists r, NewRingSources ss = ret r /\ at_node (List.length ss) r 0 /\
            Source r = ret (hd None ss).
Proof.
  intros Hne. unfold NewRingSources.
  assert (Hpos : 0 < List.length ss) by (destruct ss; simpl; [congruence | lia]).
  pose proof (New_at_node (Z.of_nat (List.length ss)) ltac:(lia)) as Hat.
  rewrite Nat2Z.id in Hat.
  destruct (NewRingSources_loop _ ss _ 0 Hat ltac:(lia))
    as (r & Hfold & Hat' & _ & Hvals).
  simpl in Hat'. rewrite Nat.Div0.mod_same in Hat'.
  exists r. split; [exact Hfold |]. split; [exact Hat' |].
  destruct (Hvals 0 Hpos) as (nd & End & Hv). simpl in End.
  apply (Source_lookup r 0 nd); auto.
  - apply Hat'.
  - rewrite Hv. destruct ss; [congruence | reflexivity].
Qed.

(** C8. The ring built from a non-empty list of sources is circular:
    wherever the cursor stands, [Source()] answers, as many [Next] as
    there are sources bring the ring back to the same state, and [Prev]
    undoes [Next]; so [Source()] is the same after as before. *)
Theorem NewRingSources_circular (ss : list (option core.Source)) (j : nat) :
  ss <> [] ->
  exists r0 r v,
    NewRingSources ss = ret r0 /\
    iter_go j Next r0 = ret r /\
    Source r = ret v /\
    iter_go (List.length ss) Next r = ret r /\
    (r' <- iter_go (List.length ss) Next r ;; Source r') = ret v /\
    (r1 <- Next r ;; Prev r1) = ret r /\
    (r1 <- Next r ;; r2 <- Prev r1 ;; Source r2) = ret v.
Proof.
  intros Hne.
  destruct (NewRingSources_at_node ss Hne) as (r0 & Hnew & Hat0 & _).
  set (k := List.length ss) in *.
  assert (Hk : 0 < k) by (destruct Hat0 as (_ & _ & Hc); exact Hc).
  pose proof (iter_Next_at_node k j r0 0 Hat0) as Hj. simpl in Hj.
  set (c := j mod k) in *.
  assert (Hc : c < k) by (apply Nat.mod_upper_bound; lia).
  assert (Hat : at_node k (mkRing (heap r0) (Some c)) c)
    by (apply (at_node_move k r0 0 c Hat0 Hc)).
  remember (mkRing (heap r0) (Some c)) as r eqn:Er. clear Er.
  destruct (Source_at_node k r c Hat) as (v & Hv).
  assert (Hround : iter_go k Next r = ret r).
  { rewrite (iter_Next_at_node k k r c Hat).
    rewrite <- Nat.Div0.add_mod_idemp_r, Nat.Div0.mod_same, Nat.add_0_r.
    rewrite Nat.mod_small by exact Hc. now rewrite (at_node_eta k r c Hat). }
  assert (Hback : (r1 <- Next r ;; Prev r1) = ret r).
  { rewrite (Next_at_node k r c Hat). simpl.
    assert (Hn : S c mod k < k) by (apply Nat.mod_upper_bound; lia).
    rewrite (Prev_at_node k _ (S c mod k)
               (at_node_move k r c (S c mod k) Hat Hn)). simpl.
    assert (Hc' : (S c mod k + k - 1) mod k = c).
    { destruct (Nat.eq_dec (S c) k) as [E | NE].
      - rewrite E, Nat.Div0.mod_same.
        replace (0 + k - 1) with c by lia. apply Nat.mod_small; lia.
      - rewrite (Nat.mod_small (S c) k) by lia.
        replace (S c + k - 1) with (c + 1 * k) by lia.
        rewrite Nat.Div0.mod_add. apply Nat.mod_small; lia. }
    rewrite Hc'. now rewrite (at_node_eta k r c Hat). }
  exists r0, r, v. repeat split; auto.
  - rewrite Hround. exact Hv.
  - destruct (Next r) as [r1 |]; simpl in *; [| discriminate].
    rewrite Hback. exact Hv.
Qed.

(** C10. [Source()] on a position whose value is not a [Source] (never
    set, or set to something else) returns nil without failing; on a
    fresh ring of [n] nodes every position, reached by [i < n] calls of
    [Next], answers nil. *)
Theorem Source_nil_when_unset :
  (forall (r : Ring) (a : nat) (nd : container_ring.node),
     cur r = Some a -> nth_error (heap r) a = Some nd ->
     (forall s, container_ring.Value nd <> any_Source s) ->
     Source r = ret None)
  /\
  (forall (n : Z) (i : nat),
     (Z.of_nat i < n)%Z ->
     exists r, iter_go i Next (NewRing n) = ret r /\ Source r = ret None).
Proof.
  split.
  - intros r a nd Hcur E Hns. unfold Source. rewrite Hcur, E.
    destruct (container_ring.Value nd) as [| s |]; try reflexivity.
    exfalso; apply (Hns s); reflexivity.
  - intros n i Hi.
    assert (Hn : (0 < n)%Z) by lia.
    pose proof (New_at_node n Hn) as Hat.
    rewrite (iter_Next_at_node _ i _ 0 Hat). simpl.
    eexists; split; [reflexivity |].
    rewrite Nat.mod_small by lia.
    unfold Source, NewRing, container_ring.New; simpl.
    destruct (Z.leb_spec n 0) as [Hle | _]; [lia |]. simpl.
    rewrite nth_error_map, nth_error_seq.
    destruct (Nat.ltb_spec i (Z.to_nat n)) as [_ | Hge]; [reflexivity | lia].
Qed.

(** A ring of size zero is the nil ring: it has no position, and
    [Source()] on it panics. *)
Remark Source_on_nil_ring (n : Z) :
  (n <= 0)%Z -> cur (NewRing n) = None /\ Source (NewRing n) = panic.
Proof.
  intros Hn. unfold Source, NewRing, container_ring.New.
  destruct (Z.leb_spec n 0) as [_ | Hlt]; [split; reflexivity | lia].
Qed.

(** C8 at two sources, one step from the start. *)
Lemma NewRingSources_circular_witness :
  exists r0 r v,
    NewRingSources [Some (mkSource "A" 1); Some (mkSource "B" 2)] = ret r0 /\
    iter_go 1 Next r0 = ret r /\
    Source r = ret v /\
    iter_go 2 Next r = ret r /\
    (r' <- iter_go 2 Next r ;; Source r') = ret v /\
    (r1 <- Next r ;; Prev r1) = ret r /\
    (r1 <- Next r ;; r2 <- Prev r1 ;; Source r2) = ret v.
Proof.
  apply (NewRingSources_circular
           [Some (mkSource "A" 1); Some (mkSource "B" 2)] 1).
  discriminate.
Defined.

(** C10 at a node holding a value of another type, and at the third
    position of a fresh ring of three. *)
Lemma Source_nil_when_unset_witness :
  Source (mkRing [container_ring.mkNode (Some 0) (Some 0) (any_other 7)]
                 (Some 0)) = ret None
  /\ exists r, iter_go 2 Next (NewRing 3) = ret r /\ Source r = ret None.
Proof.
  split.
  - apply (proj1 Source_nil_when_unset _ 0
             (container_ring.mkNode (Some 0) (Some 0) (any_other 7)));
      [reflexivity | reflexivity | discriminate].
  - apply (proj2 Source_nil_when_unset 3%Z 2). lia.
Defined.

End RingFacts.

(** ** Loops that append to an accumulator *)

Section Loops.
Context {A B : Type}.

Lemma fold_left_snoc_filter (P : A -> bool) (l init : list A) :
  fold_left (fun acc x => if P x then acc ++ [x] else acc) l init
  = init ++ filter P l.
Proof.
  revert init; induction l as [| x l IH]; intros init; simpl.
  - now rewrite app_nil_r.
  - rewrite IH. destruct (P x); [| reflexivity].
    now rewrite <- app_assoc.
Qed.

Lemma fold_left_snoc_map (g : A -> B) (l : list A) (init : list B) :
  fold_left (fun acc x => acc ++ [g x]) l init = init ++ map g l.
Proof.
  revert init; induction l as [| x l IH]; intros init; simpl.
  - now rewrite app_nil_r.
  - rewrite IH. now rewrite <- app_assoc.
Qed.

End Loops.

(** ** The list store obeys the laws of a store *)

Section ListStoreFacts.
Import core store.

Lemma has_name_In (n : string) (l : list Source) :
  has_name n l = true <-> In n (map Name l).
Proof.
  unfold has_name. rewrite existsb_exists, in_map_iff.
  split; intros (x & H1 & H2); exists x.
  - apply String.eqb_eq in H2. auto.
  - split; [assumption | now apply String.eqb_eq].
Qed.

Lemma list_Put_names (st xs : list Source) (n : string) :
  In n (map Name (list_Put st xs)) <-> In n (map Name st) \/ In n (map Name xs).
Proof.
  unfold list_Put. revert st; induction xs as [| x xs IH]; intros st; simpl.
  - tauto.
  - rewrite IH. destruct (has_name (Name x) st) eqn:E.
    + apply has_name_In in E.
      split; [tauto | intros [h | [h | h]]; subst; auto].
    + rewrite map_app, in_app_iff. simpl. tauto.
Qed.

Lemma list_Del_names (st xs : list Source) (n : string) :
  In n (map Name (list_Del st xs)) <-> In n (map Name st) /\ ~ In n (map Name xs).
Proof.
  unfold list_Del. split.
  - intros Hn. apply in_map_iff in Hn as (s & Hn & Hin).
    apply filter_In in Hin as [Hin Hf].
    split; [apply in_map_iff; exists s; auto |]. subst n. intros Hx.
    apply has_name_In in Hx. rewrite Hx in Hf. discriminate.
  - intros [Hn Hx]. apply in_map_iff in Hn as (s & Hn & Hin).
    apply in_map_iff. exists s. split; [assumption |].
    apply filter_In. split; [assumption |]. subst n.
    destruct (has_name (Name s) xs) eqn:E; [| reflexivity].
    apply has_name_In in E. contradiction.
Qed.

#[export] Instance ListStoreLaws : StoreLaws (list Source).
Proof.
  split.
  - intros st xs n. apply list_Put_names.
  - intros st xs n. apply list_Del_names.
Qed.

End ListStoreFacts.

(** ** The source store: what each mutation computes *)

Section SourceStoreFacts.
Import core store.
Context {T : Type} {St : Store T}.

(** The sweep of [AddPolicy]: the rejected sources leave the protected
    store and are appended to [underPolicy], tagged with the new policy. *)
Lemma AddPolicy_eq (p : Policy) (ss : SourceStore T) :
  let rej := filter (fun src => negb (Func p (Name src)))
                    (Store.Do (protected ss)) in
  AddPolicy p ss =
  mkSourceStore (Store.Del (protected ss) rej)
                (Policies ss ++ [p])
                (underPolicy ss ++ map (fun v => mkDummy v "" p true []) rej).
Proof.
  unfold AddPolicy, make0. simpl.
  rewrite fold_left_snoc_filter, fold_left_snoc_map. reflexivity.
Qed.

Lemma GetAccepted_eq (ss : SourceStore T) :
  GetAccepted ss = Store.Do (protected ss).
Proof.
  unfold GetAccepted, make0.
  rewrite (fold_left_snoc_map (fun x : Source => x)). simpl.
  apply map_id.
Qed.

Lemma Del_f_true (sources : list Source) (e : DummySource) :
  Del_f sources e = true <-> ~ In (DSName e) (map Name sources).
Proof.
  induction sources as [| v sources IH]; simpl.
  - tauto.
  - destruct (String.eqb_spec (Name v) (DSName e)) as [E | NE].
    + split; [discriminate | intros H; exfalso; apply H; auto].
    + rewrite IH. tauto.
Qed.

Lemma Del_eq (sources : list Source) (ss : SourceStore T) :
  Del sources ss =
  mkSourceStore (Store.Del (protected ss) sources) (Policies ss)
                (filter (Del_f sources) (underPolicy ss)).
Proof.
  unfold Del, make0. now rewrite fold_left_snoc_filter.
Qed.

(** The closure of [Put] answers either "accepted by all" or the first
    policy that rejects. *)
Lemma Put_f_spec (ps : list Policy) (src : Source) :
  (Put_f ps src = (None, true) /\
   forall p, In p ps -> Func p (Name src) = true)
  \/
  (exists p, Put_f ps src = (Some p, false) /\ In p ps /\
             Func p (Name src) = false).
Proof.
  induction ps as [| v ps IH]; simpl.
  - left. split; [reflexivity | contradiction].
  - destruct (Func v (Name src)) eqn:E; simpl.
    + destruct IH as [[H1 H2] | (p & H1 & H2 & H3)].
      * left. split; [assumption |]. intros p [<- | Hp]; auto.
      * right. exists p. auto.
    + right. exists v. auto.
Qed.

Lemma Put_loop (ps : list Policy) (sources : list Source) :
  forall (a0 : list Source) (u0 : list DummySource),
  exists acc up,
    fold_left
      (fun (st : list Source * list DummySource) v =>
         match Put_f ps v with
         | (_, true) => (fst st ++ [v], snd st)
         | (Some p, false) =>
           (fst st, snd st ++ [mkDummy v (Name v) p true []])
         | (None, false) => st
         end)
      sources (a0, u0) = (a0 ++ acc, u0 ++ up) /\
    (forall x, In x acc ->
       In x sources /\ forall p, In p ps -> Func p (Name x) = true) /\
    (forall x, In x sources ->
       (forall p, In p ps -> Func p (Name x) = true) -> In x acc) /\
    (forall e, In e up ->
       In (internal e) sources /\ DSName e = Name (internal e) /\
       In (DSPolicy e) ps /\ Func (DSPolicy e) (Name (internal e)) = false) /\
    (forall x, In x sources -> In x acc \/ exists e, In e up /\ internal e = x).
Proof.
  induction sources as [| v sources IH]; intros a0 u0; simpl.
  - exists [], []. rewrite !app_nil_r.
    split; [reflexivity |]. repeat split; contradiction.
  - destruct (Put_f_spec ps v) as [[E Hall] | (p & E & Hin & Hrej)]; rewrite E.
    + destruct (IH (a0 ++ [v]) u0) as (acc & up & Hf & H1 & H2 & H3 & H4).
      exists (v :: acc), up. simpl in *.
      rewrite Hf, <- app_assoc. split; [reflexivity |].
      split; [| split; [| split]].
      * intros x [<- | Hx]; [auto |]. destruct (H1 x Hx); auto.
      * intros x [<- | Hx] Hacc; [left; reflexivity | right; auto].
      * intros e He. destruct (H3 e He) as (? & ? & ? & ?); auto.
      * intros x [<- | Hx]; [left; left; reflexivity |].
        destruct (H4 x Hx) as [? | ?]; [left; right |]; auto.
    + destruct (IH a0 (u0 ++ [mkDummy v (Name v) p true []]))
        as (acc & up & Hf & H1 & H2 & H3 & H4).
      exists acc, (mkDummy v (Name v) p true [] :: up). simpl in *.
      rewrite Hf, <- app_assoc. split; [reflexivity |].
      split; [| split; [| split]].
      * intros x Hx. destruct (H1 x Hx); auto.
      * intros x [<- | Hx] Hacc; [| auto].
        rewrite (Hacc p Hin) in Hrej. discriminate.
      * intros e [<- | He]; simpl; [auto |].
        destruct (H3 e He) as (? & ? & ? & ?); auto.
      * intros x [<- | Hx].
        -- right. eexists; split; [left; reflexivity | reflexivity].
        -- destruct (H4 x Hx) as [? | (e & ? & ?)]; [left; auto |].
           right. exists e. auto.
Qed.

(** [Put]: the policies stay, the accepted sources go to the protected
    store, the others are appended to [underPolicy] under their name and
    the first policy that rejects them. *)
Lemma Put_eq (sources : list Source) (ss : SourceStore T) :
  exists acc up,
    Put sources ss =
    mkSourceStore (Store.Put (protected ss) acc) (Policies ss)
                  (underPolicy ss ++ up) /\
    (forall x, In x acc ->
       In x sources /\
       forall p, In p (Policies ss) -> Func p (Name x) = true) /\
    (forall x, In x sources ->
       (forall p, In p (Policies ss) -> Func p (Name x) = true) ->
       In x acc) /\
    (forall e, In e up ->
       In (internal e) sources /\ DSName e = Name (internal e) /\
       In (DSPolicy e) (Policies ss) /\
       Func (DSPolicy e) (Name (internal e)) = false) /\
    (forall x, In x sources -> In x acc \/ exists e, In e up /\ internal e = x).
Proof.
  destruct (Put_loop (Policies ss) sources [] [])
    as (acc & up & Hf & H1 & H2 & H3 & H4).
  exists acc, up. unfold Put, make0. rewrite Hf. simpl. auto.
Qed.

(** The search of [DelPolicy] finds the first policy with the id. *)
Lemma find_policy_Some (id : string) (ps : list Policy) :
  forall i j, find_policy id ps i = Some j ->
  exists l1 p l2,
    ps = l1 ++ p :: l2 /\ j = i + List.length l1 /\ ID p = id /\
    forall q, In q l1 -> ID q <> id.
Proof.
  induction ps as [| v ps IH]; intros i j; simpl; [discriminate |].
  destruct (String.eqb_spec (ID v) id) as [E | NE].
  - intros [= <-]. exists [], v, ps. simpl.
    split; [reflexivity |]. split; [lia |]. split; [exact E |].
    intros q [].
  - intros H. destruct (IH _ _ H) as (l1 & p & l2 & -> & -> & Hp & Hl1).
    exists (v :: l1), p, l2. simpl.
    split; [reflexivity |]. split; [lia |]. split; [exact Hp |].
    intros q [<- | Hq]; auto.
Qed.

Lemma find_policy_None (id : string) (ps : list Policy) :
  forall i, find_policy id ps i = None <-> forall q, In q ps -> ID q <> id.
Proof.
  induction ps as [| v ps IH]; intros i; simpl.
  - split; [intros _ q [] | reflexivity].
  - destruct (String.eqb_spec (ID v) id) as [E | NE].
    + split; [discriminate |].
      intros H; exfalso; apply (H v); [left; reflexivity | exact E].
    + rewrite IH. split.
      * intros H q [<- | Hq]; auto.
      * intros H q Hq. apply H. auto.
Qed.

Lemma cut_at (l1 l2 : list Policy) (p : Policy) :
  firstn (List.length l1) (l1 ++ p :: l2)
  ++ skipn (S (List.length l1)) (l1 ++ p :: l2) = l1 ++ l2.
Proof.
  induction l1 as [| q l1 IH]; simpl; [reflexivity |].
  simpl in IH. now rewrite IH.
Qed.

End SourceStoreFacts.

(** ** The source store over a lawful protected store *)

Section Invariants.
Import core store.
Context {T : Type} {St : Store T} {Laws : StoreLaws T}.

(** The restoring loop of [DelPolicy]: the entries tagged with [id] are
    put into the protected store one by one, the others are kept. *)
Lemma DelPolicy_loop (id : string) (l : list DummySource) :
  forall (prot : T) (acc0 : list DummySource),
  exists prot',
    fold_left
      (fun (st : T * list DummySource) v =>
         if ID (DSPolicy v) =? id
         then (Store.Put (fst st) [internal v], snd st)
         else (fst st, snd st ++ [v]))
      l (prot, acc0)
    = (prot', acc0 ++ filter (fun e => negb (ID (DSPolicy e) =? id)) l) /\
    forall n, In n (names prot') <->
      In n (names prot) \/
      exists e, In e l /\ ID (DSPolicy e) = id /\ Name (internal e) = n.
Proof.
  induction l as [| v l IH]; intros prot acc0; simpl.
  - exists prot. rewrite app_nil_r. split; [reflexivity |].
    intros n. split; [auto | intros [h | (e & [] & _)]; exact h].
  - destruct (String.eqb_spec (ID (DSPolicy v)) id) as [E | NE]; simpl.
    + destruct (IH (Store.Put prot [internal v]) acc0) as (prot' & Hf & Hn).
      exists prot'. split; [exact Hf |].
      intros n. rewrite Hn, Put_names. simpl. split.
      * intros [[h | [h | []]] | (e & He & Hid & Hname)]; auto.
        -- right. exists v. auto.
        -- right. exists e. auto.
      * intros [h | (e & [<- | He] & Hid & Hname)]; auto.
        right. exists e. auto.
    + destruct (IH prot (acc0 ++ [v])) as (prot' & Hf & Hn).
      exists prot'. rewrite Hf, <- app_assoc. split; [reflexivity |].
      intros n. rewrite Hn. split.
      * intros [h | (e & He & Hid & Hname)]; auto.
        right. exists e. auto.
      * intros [h | (e & [<- | He] & Hid & Hname)]; auto.
        -- contradiction.
        -- right. exists e. auto.
Qed.

(** [DelPolicy] of an id carried by some policy: the first such policy
    leaves the list, the entries tagged with the id leave [underPolicy]
    and their sources enter the protected store. *)
Lemma DelPolicy_found (id : string) (ss : SourceStore T) (j : nat) :
  find_policy id (Policies ss) 0 = Some j ->
  exists prot',
    DelPolicy id ss =
    mkSourceStore prot'
      (firstn j (Policies ss) ++ skipn (S j) (Policies ss))
      (filter (fun e => negb (ID (DSPolicy e) =? id)) (underPolicy ss)) /\
    forall n, In n (names prot') <->
      In n (names (protected ss)) \/
      exists e, In e (underPolicy ss) /\ ID (DSPolicy e) = id /\
                Name (internal e) = n.
Proof.
  intros Hfind. unfold DelPolicy, make0. rewrite Hfind.
  destruct (DelPolicy_loop id (underPolicy ss) (protected ss) [])
    as (prot' & Hf & Hn).
  exists prot'. rewrite Hf. simpl. auto.
Qed.

Lemma DelPolicy_not_found (id : string) (ss : SourceStore T) :
  find_policy id (Policies ss) 0 = None -> DelPolicy id ss = ss.
Proof. intros Hfind. unfold DelPolicy. now rewrite Hfind. Qed.

Lemma Inv_New (st : T) : Inv (New st).
Proof. split; simpl; intros; contradiction. Qed.

Lemma Inv_Put (sources : list Source) (ss : SourceStore T) :
  Inv ss -> Inv (Put sources ss).
Proof.
  intros [I1 I2].
  destruct (Put_eq sources ss) as (acc & up & -> & H1 & _ & H3 & _).
  split; simpl.
  - intros n Hn p Hp. apply Put_names in Hn as [Hn | Hn]; [now apply I1 |].
    apply in_map_iff in Hn as (x & <- & Hx). now apply (H1 x Hx).
  - intros e He. apply in_app_iff in He as [He | He]; [now apply I2 |].
    destruct (H3 e He) as (_ & _ & ? & ?). auto.
Qed.

Lemma Inv_Del (sources : list Source) (ss : SourceStore T) :
  Inv ss -> Inv (Del sources ss).
Proof.
  intros [I1 I2]. rewrite Del_eq. split; simpl.
  - intros n Hn. apply Del_names in Hn as [Hn _]. now apply I1.
  - intros e He. apply filter_In in He as [He _]. now apply I2.
Qed.

Lemma Inv_AddPolicy (p : Policy) (ss : SourceStore T) :
  Inv ss -> Inv (AddPolicy p ss).
Proof.
  intros [I1 I2]. rewrite AddPolicy_eq. split; simpl.
  - intros n Hn q Hq. apply Del_names in Hn as [Hn Hrej].
    apply in_app_iff in Hq as [Hq | [<- | []]]; [now apply I1 |].
    destruct (Func p n) eqn:E; [reflexivity |]. exfalso. apply Hrej.
    unfold names in Hn. apply in_map_iff in Hn as (x & <- & Hx).
    apply in_map. apply filter_In. split; [assumption |].
    now rewrite E.
  - intros e He. apply in_app_iff in He as [He | He].
    + destruct (I2 e He). split; [apply in_app_iff |]; auto.
    + apply in_map_iff in He as (x & <- & Hx). simpl.
      apply filter_In in Hx as [_ Hx].
      split; [apply in_app_iff; right; left; reflexivity |].
      now apply negb_true_iff in Hx.
Qed.

Lemma Inv_DelPolicy (id : string) (ss : SourceStore T) :
  restores_accepted id ss = true -> Inv ss -> Inv (DelPolicy id ss).
Proof.
  intros Hok [I1 I2]. unfold restores_accepted in Hok.
  destruct (find_policy id (Policies ss) 0) as [j |] eqn:Hfind;
    [| rewrite (DelPolicy_not_found _ _ Hfind); split; assumption].
  destruct (DelPolicy_found id ss j Hfind) as (prot' & -> & Hn).
  destruct (find_policy_Some _ _ _ _ Hfind) as (l1 & p & l2 & Hps & -> & Hp & Hl1).
  simpl in *. rewrite Hps in *. rewrite cut_at in *.
  split; simpl.
  - intros n Hin q Hq. apply Hn in Hin as [Hin | (e & He & Hid & <-)].
    + apply (I1 n Hin). apply in_app_iff in Hq as [Hq | Hq];
        apply in_app_iff; simpl; auto.
    + rewrite forallb_forall in Hok. specialize (Hok e He).
      apply String.eqb_eq in Hid. rewrite Hid in Hok. simpl in Hok.
      rewrite forallb_forall in Hok. now apply Hok.
  - intros e He. apply filter_In in He as [He Hid].
    destruct (I2 e He) as [Htag Hrej]. split; [| assumption].
    apply negb_true_iff, String.eqb_neq in Hid.
    apply in_app_iff in Htag as [Htag | [Htag | Htag]];
      apply in_app_iff; auto.
    subst p. contradiction.
Qed.

Lemma Inv_run (ops : list op) :
  forall ss : SourceStore T,
  guarded ops ss = true -> Inv ss -> Inv (run ops ss).
Proof.
  induction ops as [| o ops IH]; intros ss Hg HI; simpl in *; [assumption |].
  apply andb_true_iff in Hg as [Ho Hg].
  apply IH; [assumption |].
  destruct o; simpl.
  - now apply Inv_Put.
  - now apply Inv_Del.
  - now apply Inv_AddPolicy.
  - now apply Inv_DelPolicy.
Qed.

Lemma Inv_P1 (ss : SourceStore T) : Inv ss -> P1 ss.
Proof.
  intros [I1 I2] s Hheld. unfold in_protected, accepted. split.
  - intros Hin p Hp. now apply (I1 _ Hin).
  - intros Hacc. destruct Hheld as [Hin | (e & He & Hname)]; [assumption |].
    destruct (I2 e He) as [Htag Hrej]. rewrite Hname in Hrej.
    rewrite (Hacc _ Htag) in Hrej. discriminate.
Qed.

Lemma Inv_P2 (ss : SourceStore T) : Inv ss -> P2 ss.
Proof.
  intros [I1 I2] s [Hin (e & He & Hname)].
  destruct (I2 e He) as [Htag Hrej]. rewrite Hname in Hrej.
  unfold in_protected in Hin. rewrite (I1 _ Hin _ Htag) in Hrej.
  discriminate.
Qed.

End Invariants.

(** ** The source store: the stated properties *)

Section SourceStoreProperties.
Import core store sample.

(** The restore of [DelPolicy] is the only way P1 breaks: as long as no
    [DelPolicy] puts back a source that a remaining policy rejects, a
    source held by the store is in the protected store exactly when every
    policy accepts its name. *)
Lemma P1_after_guarded_mutations
        {T : Type} {St : Store T} {Laws : StoreLaws T}
        (st0 : T) (ops : list op) :
  guarded ops (New st0) = true -> P1 (run ops (New st0)).
Proof.
  intros Hg. apply Inv_P1. apply Inv_run; [exact Hg | apply Inv_New].
Qed.

Lemma P1_after_guarded_mutations_witness :
  guarded [OpAddPolicy blockA; OpPut [srcA; srcB]; OpDelPolicy "x";
           OpPut [srcA]; OpDel [srcB]] empty = true
  /\ P1 (run [OpAddPolicy blockA; OpPut [srcA; srcB]; OpDelPolicy "x";
              OpPut [srcA]; OpDel [srcB]] empty).
Proof.
  split; [reflexivity |].
  apply (P1_after_guarded_mutations (T := list Source) []). reflexivity.
Defined.

(** C1 fails on the code: [DelPolicy] restores with [ss.protected.Put],
    without the check of all policies that [Put] makes.  With two policies
    blocking A, [DelPolicy] of the first puts A back into the protected
    store although the second still rejects it, so a protected source is
    not accepted by every policy. *)
Theorem P1_fails_after_DelPolicy :
  in_protected (DelPolicy "x" blocked_twice) srcA
  /\ ~ accepted (DelPolicy "x" blocked_twice) srcA
  /\ ~ P1 (run [OpAddPolicy blockA; OpAddPolicy blockA'; OpPut [srcA];
               OpDelPolicy "x"] empty).
Proof.
  assert (Hin : in_protected (DelPolicy "x" blocked_twice) srcA)
    by (left; reflexivity).
  assert (Hrej : ~ accepted (DelPolicy "x" blocked_twice) srcA).
  { intros Hacc. specialize (Hacc blockA' (or_introl eq_refl)).
    discriminate Hacc. }
  split; [exact Hin |]. split; [exact Hrej |].
  intros HP1. apply Hrej. apply (HP1 srcA); [left |]; exact Hin.
Qed.

(** What the restore of [DelPolicy] does, for an entry of [underPolicy]
    whose tag policy is installed: the first policy with the tag's id is
    removed, exactly the entries tagged with that id leave [underPolicy],
    and their sources are put into the protected store, no policy being
    consulted. *)
Lemma DelPolicy_restores_unchecked
        {T : Type} {St : Store T} {Laws : StoreLaws T}
        (ss : SourceStore T) (e : DummySource) :
  In e (underPolicy ss) ->
  In (DSPolicy e) (Policies ss) ->
  let id := ID (DSPolicy e) in
  let ss' := DelPolicy id ss in
  (exists l1 p l2,
      Policies ss = l1 ++ p :: l2 /\ ID p = id /\
      (forall q, In q l1 -> ID q <> id) /\
      Policies ss' = l1 ++ l2)
  /\ in_protected ss' (internal e)
  /\ underPolicy ss'
     = filter (fun e' => negb (ID (DSPolicy e') =? id)) (underPolicy ss)
  /\ ~ In e (underPolicy ss')
  /\ (forall n, In n (names (protected ss')) <->
        In n (names (protected ss)) \/
        exists e', In e' (underPolicy ss) /\ ID (DSPolicy e') = id /\
                   Name (internal e') = n).
Proof.
  intros He Htag id ss'.
  destruct (find_policy id (Policies ss) 0) as [j |] eqn:Hfind.
  - destruct (DelPolicy_found id ss j Hfind) as (prot' & Heq & Hn).
    destruct (find_policy_Some _ _ _ _ Hfind)
      as (l1 & p & l2 & Hps & Hj & Hp & Hl1).
    subst ss'. rewrite Heq. simpl. simpl in Hj. subst j.
    split; [| split; [| split; [| split]]].
    + exists l1, p, l2. rewrite Hps at 2 3. rewrite cut_at. auto.
    + apply Hn. right. exists e. auto.
    + reflexivity.
    + intros Hin. apply filter_In in Hin as [_ Hid].
      fold id in Hid. rewrite String.eqb_refl in Hid. discriminate.
    + exact Hn.
  - exfalso. apply (proj1 (find_policy_None id (Policies ss) 0) Hfind _ Htag).
    reflexivity.
Qed.

Lemma DelPolicy_restores_unchecked_witness :
  In (mkDummy srcA "A" blockA true []) (underPolicy blocked_twice)
  /\ In blockA (Policies blocked_twice)
  /\ in_protected (DelPolicy "x" blocked_twice) srcA.
Proof.
  split; [left; reflexivity |]. split; [left; reflexivity |].
  exact (proj1 (proj2
           (DelPolicy_restores_unchecked
              (T := list Source) blocked_twice
              (mkDummy srcA "A" blockA true [])
              (or_introl eq_refl) (or_introl eq_refl)))).
Defined.

(** C2 fails on the code: [DelPolicy] restores with [ss.protected.Put],
    not through the check of all policies that [Put] makes.  A is under
    policy with tag [blockA]; after [DelPolicy] of that tag's id A is
    protected although [blockA'] remains and rejects it.  And with two
    policies under one id, [DelPolicy] removes the first and frees B,
    although the policy B is tagged with, [blockB], stays installed and
    rejects it. *)
Theorem DelPolicy_frees_rejected_source :
  (underPolicy blocked_twice = [mkDummy srcA "A" blockA true []]
   /\ Policies (DelPolicy "x" blocked_twice) = [blockA']
   /\ Func blockA' (Name srcA) = false
   /\ in_protected (DelPolicy "x" blocked_twice) srcA
   /\ ~ restored_iff_accepted blocked_twice)
  /\
  (underPolicy same_id = [mkDummy srcB "B" blockB true []]
   /\ Policies (DelPolicy "x" same_id) = [blockB]
   /\ Func blockB (Name srcB) = false
   /\ in_protected (DelPolicy "x" same_id) srcB
   /\ underPolicy (DelPolicy "x" same_id) = []
   /\ ~ restored_iff_accepted same_id).
Proof.
  split.
  - split; [reflexivity |]. split; [reflexivity |]. split; [reflexivity |].
    assert (Hin : in_protected (DelPolicy "x" blocked_twice) srcA)
      by (left; reflexivity).
    split; [exact Hin |]. intros H.
    specialize (H (mkDummy srcA "A" blockA true []) (or_introl eq_refl)).
    simpl in H. apply H in Hin.
    specialize (Hin blockA' (or_introl eq_refl)). discriminate Hin.
  - split; [reflexivity |]. split; [reflexivity |]. split; [reflexivity |].
    assert (Hin : in_protected (DelPolicy "x" same_id) srcB)
      by (left; reflexivity).
    split; [exact Hin |]. split; [reflexivity |]. intros H.
    specialize (H (mkDummy srcB "B" blockB true []) (or_introl eq_refl)).
    simpl in H. apply H in Hin.
    specialize (Hin blockB (or_introl eq_refl)). discriminate Hin.
Qed.

(** Likewise for P2: as long as no [DelPolicy] puts back a source that a
    remaining policy rejects, no name is both in the protected store and
    the name of a source kept under policy. *)
Lemma P2_after_guarded_mutations
        {T : Type} {St : Store T} {Laws : StoreLaws T}
        (st0 : T) (ops : list op) :
  guarded ops (New st0) = true -> P2 (run ops (New st0)).
Proof.
  intros Hg. apply Inv_P2. apply Inv_run; [exact Hg | apply Inv_New].
Qed.

Lemma P2_after_guarded_mutations_witness :
  guarded [OpPut [srcA; srcB]; OpAddPolicy blockA; OpPut [srcA];
           OpDelPolicy "x"; OpAddPolicy blockA'] empty = true
  /\ P2 (run [OpPut [srcA; srcB]; OpAddPolicy blockA; OpPut [srcA];
              OpDelPolicy "x"; OpAddPolicy blockA'] empty).
Proof.
  split; [reflexivity |].
  apply (P2_after_guarded_mutations (T := list Source) []). reflexivity.
Defined.

(** C3 fails on the code: once [DelPolicy] has put A back, unchecked,
    while [blockA'] still rejects it, a second [Put] of A files it under
    policy as well; the name A is then both in the protected store and
    among the entries under policy. *)
Theorem P2_fails_after_DelPolicy :
  ~ P2 (run [OpAddPolicy blockA; OpAddPolicy blockA'; OpPut [srcA];
             OpDelPolicy "x"; OpPut [srcA]] empty).
Proof.
  intros H. apply (H srcA). split.
  - left; reflexivity.
  - exists (mkDummy srcA "A" blockA' true []).
    split; [left; reflexivity | reflexivity].
Qed.

(** [Del] removes by name from the protected store and removes from
    [underPolicy] the entries whose [Name] field is the name; when every
    entry records the name of its source, as the entries built by [Put]
    do, nothing of that name is left. *)
Lemma Del_clears_named
      {T : Type} {St : Store T} {Laws : StoreLaws T}
      (ss : SourceStore T) (s : Source) :
  (forall e, In e (underPolicy ss) -> DSName e = Name (internal e)) ->
  Del_clears ss s.
Proof.
  intros Hnamed. unfold Del_clears, in_protected, in_underPolicy.
  rewrite Del_eq. split.
  - intros Hin. change (In (Name s) (names (Store.Del (protected ss) [s]))) in Hin.
    apply Del_names in Hin as [_ Hin]. apply Hin. simpl. auto.
  - intros (e & He & Hname).
    change (In e (filter (Del_f [s]) (underPolicy ss))) in He.
    apply filter_In in He as [He Hf].
    apply Del_f_true in Hf. apply Hf. simpl. left.
    rewrite (Hnamed e He). auto.
Qed.

(** C4 fails on the code: a source swept out of the protected store by
    [AddPolicy] is filed without its name, so [Del] of that source leaves
    its entry in [underPolicy]. *)
Theorem Del_misses_swept_entry :
  underPolicy swept = [mkDummy srcA "" blockA true []]
  /\ underPolicy (Del [srcA] swept) = [mkDummy srcA "" blockA true []]
  /\ in_underPolicy (Del [srcA] swept) srcA
  /\ ~ Del_clears swept srcA.
Proof.
  split; [reflexivity |]. split; [reflexivity |].
  assert (Hin : in_underPolicy (Del [srcA] swept) srcA).
  { exists (mkDummy srcA "" blockA true []).
    split; [left; reflexivity | reflexivity]. }
  split; [exact Hin |]. intros [_ Hout]. exact (Hout Hin).
Qed.

(** C5 fails on the code: [GetPoliciesSnapshot] copies into a slice of
    length zero, so it returns no policy at all, whatever the store
    holds. *)
Theorem GetPoliciesSnapshot_empty :
  (forall (T : Type) (St : Store T) (ss : SourceStore T),
     GetPoliciesSnapshot ss = [])
  /\ Policies (AddPolicy blockA empty) = [blockA]
  /\ List.length (GetPoliciesSnapshot (AddPolicy blockA empty)) = 0
  /\ GetPoliciesSnapshot (AddPolicy blockA empty)
     <> Policies (AddPolicy blockA empty).
Proof.
  split; [intros; reflexivity |].
  split; [reflexivity |]. split; [reflexivity |]. discriminate.
Qed.

(** C9. [DelPolicy] with an id that no installed policy carries leaves the
    store as it is: policies, protected store and [underPolicy]. *)
Theorem DelPolicy_unknown_id
        {T : Type} {St : Store T} (ss : SourceStore T) (id : string) :
  (forall p, In p (Policies ss) -> ID p <> id) ->
  DelPolicy id ss = ss
  /\ Policies (DelPolicy id ss) = Policies ss
  /\ protected (DelPolicy id ss) = protected ss
  /\ underPolicy (DelPolicy id ss) = underPolicy ss.
Proof.
  intros Hno. apply (find_policy_None id (Policies ss) 0) in Hno.
  unfold DelPolicy. rewrite Hno. auto.
Qed.

Lemma DelPolicy_unknown_id_witness :
  (forall p, In p (Policies one_policy) -> ID p <> "z")
  /\ DelPolicy "z" one_policy = one_policy.
Proof.
  assert (Hno : forall p, In p (Policies one_policy) -> ID p <> "z").
  { intros p [<- | []]. discriminate. }
  split; [exact Hno |].
  apply (DelPolicy_unknown_id one_policy "z" Hno).
Defined.

End SourceStoreProperties.

(** * Further properties *)

(** ** The other policies *)

Section MorePolicyFacts.
Import policy.

(** X1. A policy built by [NewBlockPolicy] for source [S] accepts [(id,
    target)] exactly when [id] differs from [S], whatever the target. *)
Theorem BlockPolicy_Accept_iff (issuer S id target : string) :
  BlockPolicy.Accept (NewBlockPolicy issuer S) id target = true <-> id <> S.
Proof.
  unfold BlockPolicy.Accept, NewBlockPolicy; simpl.
  destruct (String.eqb_spec id S) as [e | ne]; simpl.
  - split; [discriminate | contradiction].
  - split; auto.
Qed.

(** X2. A policy built by [NewAvoidPolicy] for source [S] and target [T]
    rejects the pair [(S, T)] and nothing else. *)
Theorem AvoidPolicy_Accept_iff (issuer S T id target : string) :
  AvoidPolicy.Accept (NewAvoidPolicy issuer S T) id target = false
  <-> id = S /\ target = T.
Proof.
  unfold AvoidPolicy.Accept, NewAvoidPolicy; simpl.
  destruct (String.eqb_spec target T) as [e | ne];
    destruct (String.eqb_spec id S) as [e' | ne']; simpl;
    split; try discriminate; try tauto; intros [? ?]; contradiction.
Qed.

(** X3. A sticky policy rejects [(id, target)] exactly when the history
    binds [target] to a source other than [id]; a target without history
    is accepted from every source. *)
Theorem StickyPolicy_Accept_iff (issuer : string) (f : HistoryQueryFunc)
                                (id target : string) :
  StickyPolicy.Accept (NewStickyPolicy issuer f) id target = false
  <-> exists hid, f target = (hid, true) /\ id <> hid.
Proof.
  unfold StickyPolicy.Accept, NewStickyPolicy; simpl.
  destruct (f target) as [hid ok]. destruct ok.
  - destruct (String.eqb_spec id hid) as [e | ne].
    + split; [discriminate |].
      intros (h & [= <-] & Hne). contradiction.
    + split; [| reflexivity]. intros _. exists hid. auto.
  - split; [discriminate | intros (h & [=] & _)].
Qed.

(** X4. Reserving a source for a target and avoiding the same target
    from the same source amounts to blocking the source: a pair passes
    both policies exactly when it passes the block policy. *)
Theorem reserve_and_avoid_is_block (i1 i2 i3 S T id target : string) :
  ReservedPolicy.Accept (NewReservedPolicy i1 S T) id target
  && AvoidPolicy.Accept (NewAvoidPolicy i2 S T) id target
  = BlockPolicy.Accept (NewBlockPolicy i3 S) id target.
Proof.
  unfold ReservedPolicy.Accept, AvoidPolicy.Accept, BlockPolicy.Accept,
    NewReservedPolicy, NewAvoidPolicy, NewBlockPolicy; simpl.
  destruct (id =? S), (target =? T); reflexivity.
Qed.

(** X5. The identifiers tell the kinds of policy apart, and two block
    policies have the same identifier only for the same source. *)
Theorem policy_ids_apart (i1 i2 i3 i4 S1 S2 S3 T2 T3 : string)
                         (f : HistoryQueryFunc) :
  let block := ID (BlockPolicy.base (NewBlockPolicy i1 S1)) in
  let reserve := ID (ReservedPolicy.base (NewReservedPolicy i2 S2 T2)) in
  let avoid := ID (AvoidPolicy.base (NewAvoidPolicy i3 S3 T3)) in
  let stick := ID (StickyPolicy.base (NewStickyPolicy i4 f)) in
  block <> reserve /\ block <> avoid /\ block <> stick /\
  reserve <> avoid /\ reserve <> stick /\ avoid <> stick /\
  (forall i S, ID (BlockPolicy.base (NewBlockPolicy i S)) = block -> S = S1).
Proof.
  unfold ID, NewBlockPolicy, NewReservedPolicy, NewAvoidPolicy,
    NewStickyPolicy; simpl.
  repeat split; try discriminate.
  intros _ S H. injection H as H. exact H.
Qed.

End MorePolicyFacts.

(** ** The ring: enumeration, rotation, the nil ring *)

Section MoreRingFacts.
Import core Ring.

Lemma at_node_eta' (r : Ring) : mkRing (heap r) (cur r) = r.
Proof. destruct r; reflexivity. Qed.

Lemma map_nth_seq {A : Type} (l : list A) (d : A) :
  map (fun t => nth t l d) (seq 0 (List.length l)) = l.
Proof.
  induction l as [| x l IH]; simpl; [reflexivity |].
  rewrite <- seq_shift, map_map. simpl. now rewrite IH.
Qed.

Lemma mod_wrap (k c i : nat) :
  c < k -> i <= k ->
  (c + i) mod k = if Nat.ltb (c + i) k then c + i else c + i - k.
Proof.
  intros Hc Hi. destruct (Nat.ltb_spec (c + i) k) as [Hlt | Hge].
  - now apply Nat.mod_small.
  - replace (c + i) with ((c + i - k) + 1 * k) at 1 by lia.
    rewrite Nat.Div0.mod_add. apply Nat.mod_small. lia.
Qed.

(** The values of a ring of [k] linked nodes are [vals]. *)
Lemma Do_loop_linked (k : nat) (m : container_ring.mem) (vals : list any)
                     (c : nat) :
  linked k m -> c < k ->
  (forall i, i < k -> exists nd, nth_error m i = Some nd /\
                                 container_ring.Value nd = nth i vals any_nil) ->
  forall (d i fuel : nat) (acc : list any),
  i + d = k -> 0 < i -> d <= fuel ->
  container_ring.Do_loop fuel m c (Some ((c + i) mod k)) acc
  = Some (ret (acc ++ map (fun t => nth ((c + t) mod k) vals any_nil)
                          (seq i d))).
Proof.
  intros [Hlen Hlinks] Hc Hvals.
  induction d as [| d IH]; intros i fuel acc Hid Hi Hfuel.
  - assert (i = k) by lia. subst i. simpl.
    replace ((c + k) mod k) with c.
    + rewrite app_nil_r. destruct fuel; simpl; now rewrite Nat.eqb_refl.
    + rewrite mod_wrap by lia.
      destruct (Nat.ltb_spec (c + k) k); lia.
  - destruct fuel as [| fuel]; [lia |].
    assert (Hne : (c + i) mod k <> c).
    { rewrite mod_wrap by lia.
      destruct (Nat.ltb_spec (c + i) k); lia. }
    assert (Hlt : (c + i) mod k < k) by (apply Nat.mod_upper_bound; lia).
    simpl. apply Nat.eqb_neq in Hne. rewrite Hne.
    destruct (Hvals _ Hlt) as (nd & End & Hv). rewrite End.
    destruct (Hlinks _ _ End) as [Hnext _]. rewrite Hnext.
    replace (S ((c + i) mod k) mod k) with ((c + S i) mod k).
    + rewrite (IH (S i) fuel) by lia.
      rewrite <- app_assoc. simpl. now rewrite Hv.
    + replace (S ((c + i) mod k)) with ((c + i) mod k + 1) by lia.
      rewrite Nat.Div0.add_mod_idemp_l. f_equal. lia.
Qed.

Lemma Do_at_node (k : nat) (r : Ring) (c : nat) (vals : list any)
                 (fuel : nat) :
  at_node k r c -> k <= fuel ->
  (forall i, i < k -> exists nd, nth_error (heap r) i = Some nd /\
                                 container_ring.Value nd = nth i vals any_nil) ->
  Do fuel r
  = Some (ret (r, map (fun t => as_Source (nth ((c + t) mod k) vals any_nil))
                      (seq 0 k))).
Proof.
  intros Hat Hfuel Hvals.
  pose proof Hat as (Hl & Hcur & Hc).
  destruct (Hvals c Hc) as (nd & End & Hv).
  destruct (at_node_lookup _ _ _ Hat) as (nd' & End' & Hn & _).
  rewrite End in End'. injection End' as <-.
  unfold Do, container_ring.Do, container_ring.Next.
  rewrite Hcur, End, Hn.
  replace (S c mod k) with ((c + 1) mod k) by (f_equal; lia).
  rewrite (Do_loop_linked k (heap r) vals c Hl Hc Hvals (k - 1) 1 fuel)
    by lia.
  rewrite <- Hcur, (at_node_eta' r). do 3 f_equal.
  replace (seq 0 k) with (0 :: seq 1 (k - 1))
    by (destruct k; [lia |]; simpl; now rewrite Nat.sub_0_r).
  rewrite map_app, map_map. cbn [map app].
  rewrite Hv, Nat.add_0_r, (Nat.mod_small c k) by lia. reflexivity.
Qed.

Lemma as_Source_as_any (v : option core.Source) : as_Source (as_any v) = v.
Proof. destruct v; reflexivity. Qed.

(** [NewRingSources] stores source number [i] in node [i]. *)
Lemma NewRingSources_values (ss : list (option core.Source)) :
  ss <> [] ->
  exists r, NewRingSources ss = ret r /\ at_node (List.length ss) r 0 /\
    forall i, i < List.length ss ->
      exists nd, nth_error (heap r) i = Some nd /\
        container_ring.Value nd = nth i (map as_any ss) any_nil.
Proof.
  intros Hne. unfold NewRingSources.
  assert (Hpos : 0 < List.length ss) by (destruct ss; simpl; [congruence | lia]).
  pose proof (New_at_node (Z.of_nat (List.length ss)) ltac:(lia)) as Hat.
  rewrite Nat2Z.id in Hat.
  destruct (NewRingSources_loop _ ss _ 0 Hat ltac:(lia))
    as (r & Hfold & Hat' & _ & Hvals).
  simpl in Hat'. rewrite Nat.Div0.mod_same in Hat'.
  exists r. split; [exact Hfold |]. split; [exact Hat' |].
  intros i Hi. destruct (Hvals i Hi) as (nd & End & Hv).
  exists nd. split; [exact End |].
  rewrite Hv. change any_nil with (as_any None). now rewrite map_nth.
Qed.

(** X6. Round robin: after [j] calls of [Next] on the ring built from a
    non-empty list, [Source()] is the source number [j mod n] of the
    list. *)
Theorem NewRingSources_round_robin (ss : list (option core.Source))
                                   (j : nat) :
  ss <> [] ->
  exists r0 r,
    NewRingSources ss = ret r0 /\
    iter_go j Next r0 = ret r /\
    Source r = ret (nth (j mod List.length ss) ss None).
Proof.
  intros Hne.
  destruct (NewRingSources_values ss Hne) as (r0 & Hnew & Hat0 & Hvals).
  set (k := List.length ss) in *.
  assert (Hk : 0 < k) by (destruct Hat0 as (_ & _ & Hc); exact Hc).
  assert (Hc : j mod k < k) by (apply Nat.mod_upper_bound; lia).
  exists r0, (mkRing (heap r0) (Some (j mod k))).
  split; [exact Hnew |].
  split; [apply (iter_Next_at_node k j r0 0 Hat0) |].
  destruct (Hvals _ Hc) as (nd & End & Hv).
  apply (Source_lookup _ (j mod k) nd); auto.
  rewrite Hv. change any_nil with (as_any None). now rewrite map_nth.
Qed.

Lemma NewRingSources_round_robin_witness :
  exists r0 r,
    NewRingSources [Some (mkSource "A" 1); Some (mkSource "B" 2)] = ret r0 /\
    iter_go 3 Next r0 = ret r /\
    Source r = ret (Some (mkSource "B" 2)).
Proof.
  apply (NewRingSources_round_robin
           [Some (mkSource "A" 1); Some (mkSource "B" 2)] 3).
  discriminate.
Defined.

(** X7. [Do] on the ring built by [NewRingSources] calls [f] on the
    sources of the list, in order, and on nothing for the empty list;
    after [j] calls of [Next] the enumeration starts at source number
    [j mod n] and wraps around.  The ring is left as it is, and as many
    turns of the loop as there are sources are enough. *)
Theorem NewRingSources_Do (ss : list (option core.Source)) (fuel : nat) :
  List.length ss <= fuel ->
  exists r0,
    NewRingSources ss = ret r0 /\
    Do fuel r0 = Some (ret (r0, ss)) /\
    (ss <> [] -> forall j, exists r,
       iter_go j Next r0 = ret r /\
       Do fuel r
       = Some (ret (r, map (fun t => nth ((j + t) mod List.length ss) ss None)
                           (seq 0 (List.length ss))))).
Proof.
  intros Hfuel. destruct ss as [| s0 ss'].
  - exists (NewRing 0). split; [reflexivity |]. split; [reflexivity |].
    intros H. contradiction.
  - set (ss := s0 :: ss') in *.
    assert (Hne : ss <> []) by discriminate.
    destruct (NewRingSources_values ss Hne) as (r0 & Hnew & Hat0 & Hvals).
    set (k := List.length ss) in *.
    assert (Hk : 0 < k) by (destruct Hat0 as (_ & _ & Hc); exact Hc).
    assert (Hrot : forall c r, at_node k r c -> heap r = heap r0 ->
              Do fuel r
              = Some (ret (r, map (fun t => nth ((c + t) mod k) ss None)
                                  (seq 0 k)))).
    { intros c r Hat Hheap.
      rewrite (Do_at_node k r c (map as_any ss) fuel Hat Hfuel)
        by (rewrite Hheap; exact Hvals).
      do 3 f_equal. apply map_ext. intros t.
      change any_nil with (as_any None).
      now rewrite map_nth, as_Source_as_any. }
    exists r0. split; [exact Hnew |]. split.
    + rewrite (Hrot 0 r0 Hat0 eq_refl). do 3 f_equal.
      transitivity (map (fun t => nth t ss None) (seq 0 k));
        [| apply map_nth_seq].
      apply map_ext_in.
      intros t Ht. apply in_seq in Ht. change (0 + t) with t.
      rewrite Nat.mod_small by lia. reflexivity.
    + intros _ j.
      assert (Hc : j mod k < k) by (apply Nat.mod_upper_bound; lia).
      exists (mkRing (heap r0) (Some (j mod k))).
      split; [apply (iter_Next_at_node k j r0 0 Hat0) |].
      rewrite (Hrot (j mod k) _ (at_node_move k r0 0 _ Hat0 Hc) eq_refl).
      do 3 f_equal. apply map_ext. intros t.
      now rewrite Nat.Div0.add_mod_idemp_l.
Qed.

Lemma NewRingSources_Do_witness :
  exists r0,
    NewRingSources [Some (mkSource "A" 1); None; Some (mkSource "B" 2)]
      = ret r0 /\
    Do 3 r0 = Some (ret (r0, [Some (mkSource "A" 1); None;
                              Some (mkSource "B" 2)])).
Proof.
  destruct (NewRingSources_Do
              [Some (mkSource "A" 1); None; Some (mkSource "B" 2)] 3
              (le_n 3)) as (r0 & H1 & H2 & _).
  exists r0. split; assumption.
Defined.

(** X8. A ring of size zero or less is the nil ring: [Source], [Set],
    [Next] and [Prev] panic on it, while [Do] returns without calling
    [f]. *)
Theorem nil_ring_behaviour (n : Z) (v : option core.Source) (fuel : nat) :
  (n <= 0)%Z ->
  Source (NewRing n) = panic /\ Set_ v (NewRing n) = panic /\
  Next (NewRing n) = panic /\ Prev (NewRing n) = panic /\
  Do fuel (NewRing n) = Some (ret (NewRing n, [])).
Proof.
  intros Hn. unfold NewRing, container_ring.New.
  destruct (Z.leb_spec n 0) as [_ | Hlt]; [| lia].
  repeat split.
Qed.

Lemma nil_ring_behaviour_witness :
  Source (NewRing 0) = panic /\ Set_ None (NewRing 0) = panic /\
  Next (NewRing 0) = panic /\ Prev (NewRing 0) = panic /\
  Do 0 (NewRing 0) = Some (ret (NewRing 0, [])).
Proof. apply (nil_ring_behaviour 0 None 0). lia. Defined.

(** X9. [Set] writes the current position only: [Source()] then returns
    the source set, the cursor has not moved, and every other position,
    [j] steps of [Next] away, answers as before. *)
Theorem Set_then_Source (k : nat) (r : Ring) (c : nat)
                        (v : option core.Source) :
  at_node k r c ->
  exists r',
    Set_ v r = ret r' /\ Source r' = ret v /\ cur r' = cur r /\
    forall j, j mod k <> 0 ->
      (x <- iter_go j Next r' ;; Source x)
      = (x <- iter_go j Next r ;; Source x).
Proof.
  intros Hat.
  destruct (Set_at_node k r c v Hat) as (r' & HSet & Hat' & Hheap).
  pose proof Hat as (_ & Hcur & Hc). pose proof Hat' as (_ & Hcur' & _).
  destruct (at_node_lookup _ _ _ Hat) as (nd & End & _).
  exists r'. split; [exact HSet |]. split; [| split].
  - apply (Source_lookup r' c (container_ring.set_Value nd (as_any v)));
      auto.
    rewrite Hheap, Nat.eqb_refl, End. reflexivity.
  - now rewrite Hcur, Hcur'.
  - intros j Hj.
    rewrite (iter_Next_at_node k j r' c Hat'), (iter_Next_at_node k j r c Hat).
    simpl. unfold Source; simpl. rewrite Hheap.
    assert (Hne : (c + j) mod k <> c).
    { rewrite <- Nat.Div0.add_mod_idemp_r.
      assert (Hjk : j mod k < k) by (apply Nat.mod_upper_bound; lia).
      rewrite mod_wrap by lia.
      destruct (Nat.ltb_spec (c + j mod k) k); lia. }
    apply Nat.eqb_neq in Hne. now rewrite Hne.
Qed.

Lemma Set_then_Source_witness :
  exists r',
    Set_ (Some (mkSource "A" 1)) (NewRing 3) = ret r' /\
    Source r' = ret (Some (mkSource "A" 1)).
Proof.
  destruct (Set_then_Source 3 (NewRing 3) 0 (Some (mkSource "A" 1))
              (New_at_node 3 eq_refl)) as (r' & H1 & H2 & _).
  exists r'. split; assumption.
Defined.

Lemma iter_Prev_at_node (k : nat) (j : nat) (r : Ring) (c : nat) :
  at_node k r c ->
  iter_go j Prev r = ret (mkRing (heap r) (Some ((c + j * (k - 1)) mod k))).
Proof.
  revert r c; induction j as [| j IH]; intros r c Hat.
  - simpl. rewrite Nat.add_0_r.
    destruct Hat as (_ & Hcur & Hc). rewrite Nat.mod_small by assumption.
    destruct r; simpl in *; now subst.
  - pose proof Hat as (_ & _ & Hck).
    assert (Hk : (c + k - 1) mod k < k) by (apply Nat.mod_upper_bound; lia).
    cbn [iter_go]. rewrite (Prev_at_node _ _ _ Hat). cbn [bind].
    rewrite (IH _ _ (at_node_move _ _ _ _ Hat Hk)). cbn [heap].
    rewrite Nat.Div0.add_mod_idemp_l. do 3 f_equal.
    f_equal. clear IH. nia.
Qed.

(** X10. Going backwards is circular too: on a ring of [k] nodes, [k]
    calls of [Prev] bring the ring back to the same state, and [Next]
    undoes [Prev]. *)
Theorem Prev_circular (k : nat) (r : Ring) (c : nat) :
  at_node k r c ->
  iter_go k Prev r = ret r /\ (r1 <- Prev r ;; Next r1) = ret r.
Proof.
  intros Hat. pose proof Hat as (_ & _ & Hc). split.
  - rewrite (iter_Prev_at_node k k r c Hat).
    replace (c + k * (k - 1)) with (c + (k - 1) * k) by lia.
    rewrite Nat.Div0.mod_add, Nat.mod_small by exact Hc.
    now rewrite (at_node_eta k r c Hat).
  - rewrite (Prev_at_node k r c Hat). cbn [bind].
    assert (Hp : (c + k - 1) mod k < k) by (apply Nat.mod_upper_bound; lia).
    rewrite (Next_at_node k _ _ (at_node_move k r c _ Hat Hp)). cbn [heap].
    replace (S ((c + k - 1) mod k)) with ((c + k - 1) mod k + 1) by lia.
    rewrite Nat.Div0.add_mod_idemp_l.
    replace (c + k - 1 + 1) with (c + 1 * k) by lia.
    rewrite Nat.Div0.mod_add, Nat.mod_small by exact Hc.
    now rewrite (at_node_eta k r c Hat).
Qed.

Lemma Prev_circular_witness :
  iter_go 3 Prev (NewRing 3) = ret (NewRing 3)
  /\ (r1 <- Prev (NewRing 3) ;; Next r1) = ret (NewRing 3).
Proof. apply (Prev_circular 3 (NewRing 3) 0 (New_at_node 3 eq_refl)). Defined.

End MoreRingFacts.

(** ** The source store: what the mutations keep and undo *)

Section MoreStoreFacts.
Import core store sample.
Context {T : Type} {St : Store T}.

Lemma filter_none {A : Type} (f : A -> bool) (l : list A) :
  (forall x, In x l -> f x = false) -> filter f l = [].
Proof.
  induction l as [| x l IH]; intros H; simpl; [reflexivity |].
  rewrite (H x (or_introl eq_refl)). apply IH. intros y Hy. apply H. now right.
Qed.

Lemma filter_all {A : Type} (f : A -> bool) (l : list A) :
  (forall x, In x l -> f x = true) -> filter f l = l.
Proof.
  induction l as [| x l IH]; intros H; simpl; [reflexivity |].
  rewrite (H x (or_introl eq_refl)). f_equal. apply IH.
  intros y Hy. apply H. now right.
Qed.

(** [Put] in closed form: the sources every policy accepts go to the
    protected store, each of the others gets an entry with its name and
    the answer of the closure. *)
Lemma Put_closed (sources : list Source) (ss : SourceStore T) :
  Put sources ss =
  mkSourceStore
    (Store.Put (protected ss)
               (filter (fun v => snd (Put_f (Policies ss) v)) sources))
    (Policies ss)
    (underPolicy ss ++
     flat_map (fun v => match Put_f (Policies ss) v with
                        | (Some p, false) => [mkDummy v (Name v) p true []]
                        | _ => []
                        end) sources).
Proof.
  unfold Put, make0.
  assert (H : forall l a0 u0,
    fold_left
      (fun (st : list Source * list DummySource) v =>
         match Put_f (Policies ss) v with
         | (_, true) => (fst st ++ [v], snd st)
         | (Some p, false) =>
           (fst st, snd st ++ [mkDummy v (Name v) p true []])
         | (None, false) => st
         end) l (a0, u0)
    = (a0 ++ filter (fun v => snd (Put_f (Policies ss) v)) l,
       u0 ++ flat_map (fun v => match Put_f (Policies ss) v with
                                | (Some p, false) =>
                                  [mkDummy v (Name v) p true []]
                                | _ => []
                                end) l)).
  { induction l as [| v l IH]; intros a0 u0; simpl.
    - now rewrite !app_nil_r.
    - destruct (Put_f (Policies ss) v) as [[p |] [|]]; simpl;
        rewrite IH; rewrite <- ?app_assoc; reflexivity. }
  rewrite H. reflexivity.
Qed.

(** The closure of [Put] returns the first policy that rejects. *)
Lemma Put_f_first (ps : list Policy) (src : Source) (p : Policy) (b : bool) :
  Put_f ps src = (Some p, b) ->
  b = false /\
  exists l1 l2, ps = l1 ++ p :: l2 /\ Func p (Name src) = false /\
                forall q, In q l1 -> Func q (Name src) = true.
Proof.
  induction ps as [| v ps IH]; simpl; [discriminate |].
  destruct (Func v (Name src)) eqn:E; simpl.
  - intros H. destruct (IH H) as (Hb & l1 & l2 & -> & Hp & Hl1).
    split; [exact Hb |]. exists (v :: l1), l2.
    split; [reflexivity |]. split; [exact Hp |].
    intros q [<- | Hq]; auto.
  - intros [= <- <-]. split; [reflexivity |]. exists [], ps.
    split; [reflexivity |]. split; [exact E |]. intros q [].
Qed.

Lemma Put_f_None (ps : list Policy) (src : Source) (b : bool) :
  Put_f ps src = (None, b) ->
  b = true /\ forall q, In q ps -> Func q (Name src) = true.
Proof.
  destruct (Put_f_spec ps src) as [[E H] | (p & E & _)]; rewrite E.
  - intros [= <-]. auto.
  - discriminate.
Qed.

Lemma find_policy_fresh (id : string) (l1 l2 : list Policy) (p : Policy) :
  forall i, (forall q, In q l1 -> ID q <> id) -> ID p = id ->
  find_policy id (l1 ++ p :: l2) i = Some (i + List.length l1).
Proof.
  induction l1 as [| v l1 IH]; intros i Hl1 Hp; simpl.
  - apply String.eqb_eq in Hp. rewrite Hp. f_equal. lia.
  - destruct (String.eqb_spec (ID v) id) as [E | NE].
    + exfalso. apply (Hl1 v); [left; reflexivity | exact E].
    + rewrite IH; [f_equal; lia | | exact Hp].
      intros q Hq. apply Hl1. now right.
Qed.

End MoreStoreFacts.

Section MoreStoreProperties.
Import core store sample.
Context {T : Type} {St : Store T}.

Lemma well_tagged_New (st : T) : well_tagged (New st).
Proof. intros e []. Qed.

Lemma well_tagged_Put (sources : list Source) (ss : SourceStore T) :
  well_tagged ss -> well_tagged (Put sources ss).
Proof.
  intros Hw e He. rewrite Put_closed in He |- *.
  cbn [underPolicy Policies] in He |- *.
  apply in_app_iff in He as [He | He]; [now apply Hw |].
  apply in_flat_map in He as (v & Hv & He).
  destruct (Put_f (Policies ss) v) as [[p |] [|]] eqn:E;
    simpl in He; try contradiction.
  destruct He as [<- | []]. simpl.
  destruct (Put_f_first _ _ _ _ E) as (_ & l1 & l2 & Hps & Hp & _).
  repeat split; auto.
  rewrite Hps. apply in_app_iff. right. left. reflexivity.
Qed.

Lemma well_tagged_Del (sources : list Source) (ss : SourceStore T) :
  well_tagged ss -> well_tagged (Del sources ss).
Proof.
  intros Hw e He. rewrite Del_eq in *. simpl in *.
  apply filter_In in He as [He _]. now apply Hw.
Qed.

Lemma well_tagged_AddPolicy (p : Policy) (ss : SourceStore T) :
  well_tagged ss -> well_tagged (AddPolicy p ss).
Proof.
  intros Hw e He. rewrite AddPolicy_eq in *. simpl in *.
  apply in_app_iff in He as [He | He].
  - destruct (Hw e He) as (? & ? & ? & ? & ?).
    repeat split; auto. apply in_app_iff. now left.
  - apply in_map_iff in He as (x & <- & Hx). simpl.
    apply filter_In in Hx as [_ Hx]. apply negb_true_iff in Hx.
    repeat split; auto. apply in_app_iff. right. left. reflexivity.
Qed.

Lemma DelPolicy_lists (id : string) (ss : SourceStore T) (j : nat) :
  find_policy id (Policies ss) 0 = Some j ->
  Policies (DelPolicy id ss)
  = firstn j (Policies ss) ++ skipn (S j) (Policies ss)
  /\ underPolicy (DelPolicy id ss)
     = filter (fun e => negb (ID (DSPolicy e) =? id)) (underPolicy ss).
Proof.
  intros Hfind. unfold DelPolicy, make0. rewrite Hfind.
  assert (H : forall l (prot : T) acc0,
    snd (fold_left
           (fun (st : T * list DummySource) v =>
              if ID (DSPolicy v) =? id
              then (Store.Put (fst st) [internal v], snd st)
              else (fst st, snd st ++ [v])) l (prot, acc0))
    = acc0 ++ filter (fun e => negb (ID (DSPolicy e) =? id)) l).
  { induction l as [| v l IH]; intros prot acc0; simpl.
    - now rewrite app_nil_r.
    - destruct (ID (DSPolicy v) =? id); simpl; rewrite IH;
        rewrite <- ?app_assoc; reflexivity. }
  specialize (H (underPolicy ss) (protected ss) []).
  destruct (fold_left _ _ _) as [prot acc]. simpl in *. subst acc. auto.
Qed.

Lemma well_tagged_DelPolicy (id : string) (ss : SourceStore T) :
  well_tagged ss -> well_tagged (DelPolicy id ss).
Proof.
  intros Hw.
  destruct (find_policy id (Policies ss) 0) as [j |] eqn:Hfind.
  - destruct (DelPolicy_lists id ss j Hfind) as [Hps Hup].
    destruct (find_policy_Some _ _ _ _ Hfind)
      as (l1 & p & l2 & Hl & Hj & Hp & Hl1).
    simpl in Hj. subst j. intros e He. rewrite Hps, Hup in *.
    apply filter_In in He as [He Hid].
    destruct (Hw e He) as (? & ? & Htag & ? & ?).
    repeat split; auto.
    rewrite Hl in *. rewrite cut_at.
    apply negb_true_iff, String.eqb_neq in Hid.
    apply in_app_iff in Htag as [Htag | [Htag | Htag]];
      apply in_app_iff; auto.
    subst p. contradiction.
  - unfold DelPolicy. now rewrite Hfind.
Qed.

Lemma well_tagged_run (st0 : T) (ops : list op) :
  well_tagged (run ops (New st0)).
Proof.
  unfold run. generalize (well_tagged_New st0).
  generalize (New st0). induction ops as [| o ops IH]; intros ss Hw; simpl.
  - exact Hw.
  - apply IH. destruct o; simpl.
    + now apply well_tagged_Put.
    + now apply well_tagged_Del.
    + now apply well_tagged_AddPolicy.
    + now apply well_tagged_DelPolicy.
Qed.

(** X11. Whatever the mutations since [New], every entry under policy is
    marked blocked, carries no metrics, is tagged with an installed
    policy that rejects the source it keeps, and records that source's
    name or the empty name: a source under policy is always rejected by
    an installed policy. *)
Theorem entries_well_tagged (st0 : T) (ops : list op) :
  forall e, In e (underPolicy (run ops (New st0))) ->
    Blocked e = true /\ Metrics e = [] /\
    In (DSPolicy e) (Policies (run ops (New st0))) /\
    Func (DSPolicy e) (Name (internal e)) = false /\
    (DSName e = "" \/ DSName e = Name (internal e)).
Proof. exact (well_tagged_run st0 ops). Qed.

(** X22. The half of P1 that every mutation keeps: whatever the
    sequence of [Put], [Del], [AddPolicy] and [DelPolicy] since [New], a
    source the store holds and every installed policy accepts is in the
    protected store. *)
Theorem held_and_accepted_is_protected (st0 : T) (ops : list op)
                                       (s : Source) :
  held (run ops (New st0)) s ->
  accepted (run ops (New st0)) s ->
  in_protected (run ops (New st0)) s.
Proof.
  intros [Hin | (e & He & Hname)] Hacc; [exact Hin |].
  destruct (well_tagged_run st0 ops e He) as (_ & _ & Htag & Hrej & _).
  rewrite Hname, (Hacc _ Htag) in Hrej. discriminate.
Qed.

(** X12. When a policy with the id is installed, [DelPolicy] removes
    exactly one policy: the list gets shorter by one, the number of
    policies with that id drops by one, and the policies with other ids
    stay as they are, in order. *)
Theorem DelPolicy_removes_one (id : string) (ss : SourceStore T) :
  (exists q, In q (Policies ss) /\ ID q = id) ->
  S (List.length (Policies (DelPolicy id ss))) = List.length (Policies ss)
  /\ S (List.length (filter (fun q => ID q =? id)
                            (Policies (DelPolicy id ss))))
     = List.length (filter (fun q => ID q =? id) (Policies ss))
  /\ filter (fun q => negb (ID q =? id)) (Policies (DelPolicy id ss))
     = filter (fun q => negb (ID q =? id)) (Policies ss).
Proof.
  intros (q & Hq & Hid).
  destruct (find_policy id (Policies ss) 0) as [j |] eqn:Hfind.
  - destruct (DelPolicy_lists id ss j Hfind) as [Hps _].
    destruct (find_policy_Some _ _ _ _ Hfind)
      as (l1 & p & l2 & Hl & Hj & Hp & Hl1).
    simpl in Hj. subst j. rewrite Hps, Hl, cut_at.
    rewrite !filter_app, !length_app. simpl.
    apply String.eqb_eq in Hp. rewrite Hp. simpl.
    repeat split; lia.
  - exfalso.
    apply (proj1 (find_policy_None id (Policies ss) 0) Hfind q Hq Hid).
Qed.

End MoreStoreProperties.

Section MoreStoreRuns.
Import core store sample.

Lemma DelPolicy_removes_one_witness :
  (exists q, In q (Policies blocked_twice) /\ ID q = "x")
  /\ S (List.length (Policies (DelPolicy "x" blocked_twice)))
     = List.length (Policies blocked_twice).
Proof.
  assert (H : exists q, In q (Policies blocked_twice) /\ ID q = "x")
    by (exists blockA; split; [left |]; reflexivity).
  split; [exact H |].
  exact (proj1 (DelPolicy_removes_one "x" blocked_twice H)).
Defined.

Lemma held_and_accepted_is_protected_witness :
  held (run [OpAddPolicy blockA; OpPut [srcA; srcB]; OpDelPolicy "x"]
            (New [])) srcA
  /\ accepted (run [OpAddPolicy blockA; OpPut [srcA; srcB]; OpDelPolicy "x"]
                   (New [])) srcA
  /\ in_protected (run [OpAddPolicy blockA; OpPut [srcA; srcB];
                        OpDelPolicy "x"] (New [])) srcA.
Proof.
  assert (Hh : held (run [OpAddPolicy blockA; OpPut [srcA; srcB];
                          OpDelPolicy "x"] (New [])) srcA)
    by (left; right; left; reflexivity).
  assert (Ha : accepted (run [OpAddPolicy blockA; OpPut [srcA; srcB];
                              OpDelPolicy "x"] (New [])) srcA)
    by (intros p []).
  split; [exact Hh |]. split; [exact Ha |].
  exact (held_and_accepted_is_protected (T := list Source) []
           [OpAddPolicy blockA; OpPut [srcA; srcB]; OpDelPolicy "x"]
           srcA Hh Ha).
Defined.

End MoreStoreRuns.

Section LawfulStoreProperties.
Import core store sample.
Context {T : Type} {St : Store T} {Laws : StoreLaws T}.

(** X13. [Put] files every source it is given: a source that all
    policies accept is in the protected store afterwards; any other gets
    an entry under policy that keeps the source, records its name, is
    marked blocked and is tagged with the first policy, in installation
    order, that rejects it. *)
Theorem Put_files_every_source (sources : list Source) (ss : SourceStore T)
                               (x : Source) :
  In x sources ->
  (accepted ss x /\ in_protected (Put sources ss) x)
  \/
  (exists p l1 l2,
      Policies ss = l1 ++ p :: l2 /\
      (forall q, In q l1 -> Func q (Name x) = true) /\
      Func p (Name x) = false /\
      In (mkDummy x (Name x) p true []) (underPolicy (Put sources ss))).
Proof.
  intros Hx. rewrite Put_closed. unfold in_protected, accepted.
  cbn [protected underPolicy].
  destruct (Put_f (Policies ss) x) as [[p |] b] eqn:E.
  - right. destruct (Put_f_first _ _ _ _ E) as (-> & l1 & l2 & Hps & Hp & Hl1).
    exists p, l1, l2. repeat split; auto.
    apply in_app_iff. right. apply in_flat_map. exists x.
    split; [exact Hx |]. rewrite E. left. reflexivity.
  - left. destruct (Put_f_None _ _ _ E) as (-> & Hall).
    split; [exact Hall |].
    apply Put_names. right. apply in_map. apply filter_In.
    split; [exact Hx |]. now rewrite E.
Qed.

(** X14. With no policy installed, [Put] sends every source to the
    protected store and leaves [underPolicy] alone. *)
Theorem Put_without_policies (sources : list Source) (ss : SourceStore T) :
  Policies ss = [] ->
  underPolicy (Put sources ss) = underPolicy ss
  /\ Policies (Put sources ss) = []
  /\ forall n, In n (names (protected (Put sources ss))) <->
               In n (names (protected ss)) \/ In n (map Name sources).
Proof.
  intros Hps. rewrite Put_closed, Hps. cbn [protected underPolicy Policies].
  assert (Hf : filter (fun v => snd (Put_f [] v)) sources = sources)
    by (apply filter_all; reflexivity).
  assert (Hu : flat_map (fun v => match Put_f [] v with
                                  | (Some p, false) =>
                                    [mkDummy v (Name v) p true []]
                                  | _ => []
                                  end) sources = [])
    by (clear Hf; induction sources; simpl; auto).
  rewrite Hf, Hu, app_nil_r. repeat split; try apply Put_names.
Qed.

(** X15. [Del] undoes [Put]: putting sources and deleting the same
    sources leaves the policies, [underPolicy] and the protected names as
    deleting them alone does. *)
Theorem Put_then_Del (sources : list Source) (ss : SourceStore T) :
  Policies (Del sources (Put sources ss)) = Policies ss
  /\ underPolicy (Del sources (Put sources ss))
     = underPolicy (Del sources ss)
  /\ forall n, In n (names (protected (Del sources (Put sources ss)))) <->
               In n (names (protected (Del sources ss))).
Proof.
  rewrite !Del_eq, Put_closed. cbn [protected underPolicy Policies].
  split; [reflexivity |]. split.
  - rewrite filter_app.
    transitivity (filter (Del_f sources) (underPolicy ss) ++ []);
      [f_equal; apply filter_none | apply app_nil_r].
    intros e He. apply in_flat_map in He as (v & Hv & He).
    destruct (Put_f (Policies ss) v) as [[p |] [|]];
      simpl in He; try contradiction.
    destruct He as [<- | []].
    destruct (Del_f sources _) eqn:E; [| reflexivity].
    apply Del_f_true in E. exfalso. apply E. simpl. now apply in_map.
  - intros n. rewrite !Del_names, Put_names. split.
    + intros [[Hn | Hn] Hout]; [auto |].
      exfalso. apply Hout. apply in_map_iff in Hn as (v & <- & Hv).
      apply filter_In in Hv as [Hv _]. now apply in_map.
    + intros [Hn Hout]. auto.
Qed.

Lemma AddPolicy_sweep (p : Policy) (ss : SourceStore T) :
  Policies (AddPolicy p ss) = Policies ss ++ [p]
  /\ (forall n, In n (names (protected (AddPolicy p ss))) <->
                In n (names (protected ss)) /\ Func p n = true)
  /\ exists swept,
       underPolicy (AddPolicy p ss)
       = underPolicy ss ++ map (fun v => mkDummy v "" p true []) swept
       /\ forall x, In x swept <->
                    In x (Store.Do (protected ss)) /\ Func p (Name x) = false.
Proof.
  rewrite AddPolicy_eq. cbn [protected underPolicy Policies].
  split; [reflexivity |]. split.
  - intros n. rewrite Del_names. split.
    + intros [Hn Hrej]. split; [exact Hn |].
      destruct (Func p n) eqn:E; [reflexivity |]. exfalso. apply Hrej.
      unfold names in Hn. apply in_map_iff in Hn as (x & <- & Hx).
      apply in_map. apply filter_In. split; [exact Hx |]. now rewrite E.
    + intros [Hn Hacc]. split; [exact Hn |]. intros Hrej.
      apply in_map_iff in Hrej as (x & <- & Hx).
      apply filter_In in Hx as [_ Hx]. rewrite Hacc in Hx. discriminate.
  - eexists. split; [reflexivity |].
    intros x. rewrite filter_In, negb_true_iff. tauto.
Qed.

(** X16. [AddPolicy p]: the policy is appended; the protected names are
    afterwards exactly the former ones that [p] accepts; the entries
    already under policy stay in place, and exactly one entry for each
    source that the protected store enumerates and [p] rejects is
    appended, in the order of enumeration, tagged with [p], marked
    blocked, with an empty name. *)
Theorem AddPolicy_effect (p : Policy) (ss : SourceStore T) :
  Policies (AddPolicy p ss) = Policies ss ++ [p]
  /\ (forall n, In n (names (protected (AddPolicy p ss))) <->
                In n (names (protected ss)) /\ Func p n = true)
  /\ underPolicy (AddPolicy p ss)
     = underPolicy ss ++
       map (fun v => mkDummy v "" p true [])
           (filter (fun x => negb (Func p (Name x)))
                   (Store.Do (protected ss))).
Proof.
  destruct (AddPolicy_sweep p ss) as (Hps & Hnames & _).
  split; [exact Hps |]. split; [exact Hnames |].
  rewrite AddPolicy_eq. reflexivity.
Qed.

(** X17. [Put], [AddPolicy] and [DelPolicy] never drop a source: a
    source held before, in the protected store or under policy, is held
    afterwards. *)
Theorem no_source_dropped (ss : SourceStore T) (s : Source)
        (sources : list Source) (p : Policy) (id : string) :
  held ss s ->
  held (Put sources ss) s /\ held (AddPolicy p ss) s
  /\ held (DelPolicy id ss) s.
Proof.
  unfold held, in_protected, in_underPolicy. intros Hheld.
  split; [| split].
  - rewrite Put_closed. cbn [protected underPolicy].
    destruct Hheld as [Hin | (e & He & Hn)].
    + left. apply Put_names. now left.
    + right. exists e. split; [apply in_app_iff; now left | exact Hn].
  - destruct (AddPolicy_sweep p ss) as (_ & Hnames & swept & Hup & Hswept).
    rewrite Hup. destruct Hheld as [Hin | (e & He & Hn)].
    + destruct (Func p (Name s)) eqn:E.
      * left. apply Hnames. auto.
      * right. unfold names in Hin. apply in_map_iff in Hin as (x & Hx & Hin).
        exists (mkDummy x "" p true []). split; [| exact Hx].
        apply in_app_iff. right. apply in_map_iff. exists x.
        split; [reflexivity |]. apply Hswept. rewrite Hx. auto.
    + right. exists e. split; [apply in_app_iff; now left | exact Hn].
  - destruct (find_policy id (Policies ss) 0) as [j |] eqn:Hfind.
    + destruct (DelPolicy_found id ss j Hfind) as (prot' & -> & Hnames).
      cbn [protected underPolicy].
      destruct Hheld as [Hin | (e & He & Hn)].
      * left. apply Hnames. now left.
      * destruct (String.eqb_spec (ID (DSPolicy e)) id) as [E | NE].
        -- left. apply Hnames. right. exists e. auto.
        -- right. exists e. split; [| exact Hn].
           apply filter_In. split; [exact He |].
           apply negb_true_iff. now apply String.eqb_neq.
    + rewrite (DelPolicy_not_found _ _ Hfind). exact Hheld.
Qed.

(** X18. Restoration: in a store reached from [New] by any mutations,
    installing a policy whose id no installed policy carries and deleting
    it again by that id gives back the policies, the entries under policy
    and the protected names as they were. *)
Theorem AddPolicy_then_DelPolicy (st0 : T) (ops : list op) (p : Policy) :
  (forall q, In q (Policies (run ops (New st0))) -> ID q <> ID p) ->
  Policies (DelPolicy (ID p) (AddPolicy p (run ops (New st0))))
  = Policies (run ops (New st0))
  /\ underPolicy (DelPolicy (ID p) (AddPolicy p (run ops (New st0))))
     = underPolicy (run ops (New st0))
  /\ forall n,
       In n (names (protected
                      (DelPolicy (ID p) (AddPolicy p (run ops (New st0))))))
       <-> In n (names (protected (run ops (New st0)))).
Proof.
  pose proof (well_tagged_run st0 ops) as Hw.
  generalize dependent (run ops (New st0)). intros ss Hw Hfresh.
  destruct (AddPolicy_sweep p ss) as (Hps & Hnames & swept & Hup & Hswept).
  assert (Hfind : find_policy (ID p) (Policies (AddPolicy p ss)) 0
                  = Some (List.length (Policies ss))).
  { rewrite Hps. apply (find_policy_fresh (ID p) (Policies ss) [] p 0);
      auto. }
  destruct (DelPolicy_found _ _ _ Hfind) as (prot' & -> & Hrest).
  cbn [protected underPolicy Policies]. rewrite Hps, Hup.
  split; [| split].
  - rewrite (cut_at (Policies ss) [] p). apply app_nil_r.
  - rewrite filter_app, filter_all, filter_none; [apply app_nil_r | |].
    + intros e He. apply in_map_iff in He as (x & <- & _). simpl.
      now rewrite String.eqb_refl.
    + intros e He. apply negb_true_iff, String.eqb_neq.
      apply Hfresh. apply (Hw e He).
  - intros n. rewrite Hrest, Hnames. split.
    + intros [[Hn _] | (e & He & Hid & Hn)]; [exact Hn |].
      rewrite Hup in He. apply in_app_iff in He as [He | He].
      * exfalso. apply (Hfresh (DSPolicy e)); [apply (Hw e He) | exact Hid].
      * apply in_map_iff in He as (x & <- & Hx). simpl in Hn. subst n.
        apply in_map. now apply Hswept.
    + intros Hn. destruct (Func p n) eqn:E; [left; auto |].
      right. unfold names in Hn. apply in_map_iff in Hn as (x & Hx & Hin).
      exists (mkDummy x "" p true []). rewrite Hup. simpl.
      split; [| auto]. apply in_app_iff. right. apply in_map_iff.
      exists x. split; [reflexivity |]. apply Hswept. rewrite Hx. auto.
Qed.

(** X19. [Del] is idempotent, and [Del] or [Put] of no source changes
    neither the policies, nor the entries under policy, nor the protected
    names. *)
Theorem Del_idempotent_and_empty_inputs (sources : list Source)
                                        (ss : SourceStore T) :
  (underPolicy (Del sources (Del sources ss)) = underPolicy (Del sources ss)
   /\ forall n, In n (names (protected (Del sources (Del sources ss)))) <->
                In n (names (protected (Del sources ss))))
  /\ (Policies (Del [] ss) = Policies ss
      /\ underPolicy (Del [] ss) = underPolicy ss
      /\ forall n, In n (names (protected (Del [] ss))) <->
                   In n (names (protected ss)))
  /\ (Policies (Put [] ss) = Policies ss
      /\ underPolicy (Put [] ss) = underPolicy ss
      /\ forall n, In n (names (protected (Put [] ss))) <->
                   In n (names (protected ss))).
Proof.
  split; [| split].
  - rewrite !Del_eq. cbn [protected underPolicy]. split.
    + apply filter_all. intros e He. now apply filter_In in He.
    + intros n. rewrite !Del_names. tauto.
  - rewrite Del_eq. cbn [protected underPolicy Policies].
    split; [reflexivity |]. split.
    + apply filter_all. reflexivity.
    + intros n. rewrite Del_names. simpl. tauto.
  - rewrite Put_closed. cbn [protected underPolicy Policies].
    split; [reflexivity |]. split.
    + apply app_nil_r.
    + intros n. rewrite Put_names. simpl. tauto.
Qed.

End LawfulStoreProperties.

Section LawfulStoreRuns.
Import core store sample.

Lemma Put_files_every_source_witness :
  In srcA [srcA; srcB]
  /\ ((accepted blocked_twice srcA
       /\ in_protected (Put [srcA; srcB] blocked_twice) srcA)
      \/
      (exists p l1 l2,
          Policies blocked_twice = l1 ++ p :: l2 /\
          (forall q, In q l1 -> Func q (Name srcA) = true) /\
          Func p (Name srcA) = false /\
          In (mkDummy srcA (Name srcA) p true [])
             (underPolicy (Put [srcA; srcB] blocked_twice)))).
Proof.
  split; [left; reflexivity |].
  apply (Put_files_every_source (T := list Source)
           [srcA; srcB] blocked_twice srcA).
  left; reflexivity.
Defined.

Lemma Put_without_policies_witness :
  Policies empty = []
  /\ underPolicy (Put [srcA; srcB] empty) = underPolicy empty.
Proof.
  split; [reflexivity |].
  exact (proj1 (Put_without_policies (T := list Source)
                  [srcA; srcB] empty eq_refl)).
Defined.

Lemma no_source_dropped_witness :
  held blocked_twice srcA
  /\ held (Put [srcB] blocked_twice) srcA
  /\ held (AddPolicy blockA blocked_twice) srcA
  /\ held (DelPolicy "x" blocked_twice) srcA.
Proof.
  assert (H : held blocked_twice srcA).
  { right. exists (mkDummy srcA "A" blockA true []).
    split; [left |]; reflexivity. }
  split; [exact H |].
  apply (no_source_dropped (T := list Source)
           blocked_twice srcA [srcB] blockA "x" H).
Defined.

Lemma AddPolicy_then_DelPolicy_witness :
  (forall q, In q (Policies (run [OpPut [srcA; srcB]; OpAddPolicy blockA]
                                 (New [])))
             -> ID q <> ID blockA')
  /\ underPolicy (DelPolicy (ID blockA')
                    (AddPolicy blockA'
                       (run [OpPut [srcA; srcB]; OpAddPolicy blockA]
                            (New []))))
     = underPolicy (run [OpPut [srcA; srcB]; OpAddPolicy blockA] (New [])).
Proof.
  assert (H : forall q,
             In q (Policies (run [OpPut [srcA; srcB]; OpAddPolicy blockA]
                                 (New [])))
             -> ID q <> ID blockA').
  { intros q [<- | []]. discriminate. }
  split; [exact H |].
  exact (proj1 (proj2 (AddPolicy_then_DelPolicy (T := list Source)
                         [] [OpPut [srcA; srcB]; OpAddPolicy blockA]
                         blockA' H))).
Defined.

Lemma entries_well_tagged_witness :
  In (mkDummy srcA "" blockA true []) (underPolicy swept)
  /\ In blockA (Policies swept)
  /\ Func blockA (Name srcA) = false.
Proof.
  split; [left; reflexivity |].
  pose proof (entries_well_tagged (T := list Source) []
                [OpPut [srcA]; OpAddPolicy blockA]
                (mkDummy srcA "" blockA true []) (or_introl eq_refl))
    as (_ & _ & H1 & H2 & _).
  split; [exact H1 | exact H2].
Defined.

Lemma Put_then_Del_witness :
  underPolicy (Del [srcA; srcB] (Put [srcA; srcB] blocked_twice))
  = underPolicy (Del [srcA; srcB] blocked_twice).
Proof.
  exact (proj1 (proj2 (Put_then_Del (T := list Source)
                         [srcA; srcB] blocked_twice))).
Defined.

Lemma AddPolicy_effect_witness :
  underPolicy (AddPolicy blockA two_sources)
  = [mkDummy srcA "" blockA true []].
Proof.
  exact (proj2 (proj2 (AddPolicy_effect (T := list Source)
                         blockA two_sources))).
Defined.

Lemma Del_idempotent_and_empty_inputs_witness :
  underPolicy (Del [srcA] (Del [srcA] swept)) = underPolicy (Del [srcA] swept).
Proof.
  exact (proj1 (proj1 (Del_idempotent_and_empty_inputs (T := list Source)
                         [srcA] swept))).
Defined.

End LawfulStoreRuns.

(** ** The ring: cutting and splicing *)

Section RingSurgery.
Import core Ring.

Lemma nxt_set_next (m : container_ring.mem) (a u : nat) (q : option nat) :
  a < List.length m ->
  nxt (container_ring.update m a (container_ring.set_next q)) u
  = if Nat.eqb u a then q else nxt m u.
Proof.
  intros Ha. unfold nxt. rewrite nth_error_update.
  destruct (Nat.eqb_spec u a) as [-> | _]; [| reflexivity].
  destruct (nth_error m a) eqn:E; [reflexivity |].
  apply nth_error_None in E. lia.
Qed.

Lemma nxt_set_prev (m : container_ring.mem) (a u : nat) (q : option nat) :
  nxt (container_ring.update m a (container_ring.set_prev q)) u = nxt m u.
Proof.
  unfold nxt. rewrite nth_error_update.
  destruct (Nat.eqb u a); [| reflexivity].
  destruct (nth_error m u); reflexivity.
Qed.

Lemma prv_set_prev (m : container_ring.mem) (a u : nat) (q : option nat) :
  a < List.length m ->
  prv (container_ring.update m a (container_ring.set_prev q)) u
  = if Nat.eqb u a then q else prv m u.
Proof.
  intros Ha. unfold prv. rewrite nth_error_update.
  destruct (Nat.eqb_spec u a) as [-> | _]; [| reflexivity].
  destruct (nth_error m a) eqn:E; [reflexivity |].
  apply nth_error_None in E. lia.
Qed.

Lemma prv_set_next (m : container_ring.mem) (a u : nat) (q : option nat) :
  prv (container_ring.update m a (container_ring.set_next q)) u = prv m u.
Proof.
  unfold prv. rewrite nth_error_update.
  destruct (Nat.eqb u a); [| reflexivity].
  destruct (nth_error m u); reflexivity.
Qed.

Lemma val_update_links (m : container_ring.mem) (a u : nat) f :
  (forall nd, container_ring.Value (f nd) = container_ring.Value nd) ->
  val (container_ring.update m a f) u = val m u.
Proof.
  intros Hf. unfold val. rewrite nth_error_update.
  destruct (Nat.eqb u a); [| reflexivity].
  destruct (nth_error m u); simpl; auto.
Qed.

Lemma store_ok (m : container_ring.mem) (a : nat) f :
  a < List.length m ->
  container_ring.store m (Some a) f = ret (container_ring.update m a f).
Proof.
  intros Ha. unfold container_ring.store.
  destruct (nth_error m a) eqn:E; [reflexivity |].
  apply nth_error_None in E. lia.
Qed.

(** A segment only depends on the forward links of its nodes but the last
    and on the backward links of its nodes but the first. *)
Lemma seg_frame (m m' : container_ring.mem) (l : list nat) :
  forall a b,
  (forall u, In u (a :: l) -> nxt m' u = nxt m u) ->
  (forall u, In u (l ++ [b]) -> prv m' u = prv m u) ->
  seg m a l b -> seg m' a l b.
Proof.
  induction l as [| x l IH]; intros a b Hn Hp; simpl.
  - intros [H1 H2]. rewrite Hn, Hp; simpl; auto.
  - intros (H1 & H2 & H3). rewrite Hn, Hp; simpl; auto.
    repeat split; auto. apply IH; auto.
    + intros u Hu. apply Hn. now right.
    + intros u Hu. apply Hp. now right.
Qed.

Lemma seg_snoc (m : container_ring.mem) (l : list nat) :
  forall a x b,
  seg m a l x -> nxt m x = Some b -> prv m b = Some x ->
  seg m a (l ++ [x]) b.
Proof.
  induction l as [| y l IH]; intros a x b; simpl.
  - intros [H1 H2] H3 H4. auto.
  - intros (H1 & H2 & H3) H4 H5. repeat split; auto.
Qed.

(** In the memory [ring.New] builds, the links lead from any node up to
    any later node, and from any node on to node 0. *)
Lemma linked_nxt (k : nat) (m : container_ring.mem) (i : nat) :
  linked k m -> i < k ->
  nxt m i = Some (S i mod k) /\ prv m i = Some ((i + k - 1) mod k).
Proof.
  intros [Hlen Hlinks] Hi. unfold nxt, prv.
  destruct (nth_error m i) as [nd |] eqn:E.
  - destruct (Hlinks i nd E); auto.
  - apply nth_error_None in E. lia.
Qed.

Lemma linked_seg_up (k : nat) (m : container_ring.mem) :
  linked k m ->
  forall d a, S (a + d) < k -> seg m a (seq (S a) d) (S (a + d)).
Proof.
  intros Hl. induction d as [| d IH]; intros a Hb; simpl.
  - destruct (linked_nxt k m a Hl) as [Hn _]; [lia |].
    destruct (linked_nxt k m (S a) Hl) as [_ Hp]; [lia |].
    rewrite Nat.add_0_r, Hn, Hp. rewrite Nat.mod_small by lia.
    replace (S a + k - 1) with (a + 1 * k) by lia.
    rewrite Nat.Div0.mod_add, Nat.mod_small by lia. auto.
  - destruct (linked_nxt k m a Hl) as [Hn _]; [lia |].
    destruct (linked_nxt k m (S a) Hl) as [_ Hp]; [lia |].
    rewrite Hn, Hp. rewrite Nat.mod_small by lia.
    replace (S a + k - 1) with (a + 1 * k) by lia.
    rewrite Nat.Div0.mod_add, Nat.mod_small by lia.
    repeat split; auto.
    replace (S (a + S d)) with (S (S a + d)) by lia. apply IH. lia.
Qed.

Lemma linked_seg_home (k : nat) (m : container_ring.mem) :
  linked k m ->
  forall d a, S (a + d) = k -> seg m a (seq (S a) d) 0.
Proof.
  intros Hl. induction d as [| d IH]; intros a Hb; simpl.
  - destruct (linked_nxt k m a Hl) as [Hn _]; [lia |].
    destruct (linked_nxt k m 0 Hl) as [_ Hp]; [lia |].
    rewrite Hn, Hp. replace (S a) with k by lia.
    rewrite Nat.Div0.mod_same.
    replace (0 + k - 1) with a by lia. rewrite Nat.mod_small by lia. auto.
  - destruct (linked_nxt k m a Hl) as [Hn _]; [lia |].
    destruct (linked_nxt k m (S a) Hl) as [_ Hp]; [lia |].
    rewrite Hn, Hp. rewrite Nat.mod_small by lia.
    replace (S a + k - 1) with (a + 1 * k) by lia.
    rewrite Nat.Div0.mod_add, Nat.mod_small by lia.
    repeat split; auto. apply IH. lia.
Qed.

(** [Do] walks a ring of distinct nodes once round. *)
Lemma Do_loop_seg (m : container_ring.mem) (r : nat) (l : list nat) :
  forall x fuel acc,
  seg m x l r -> ~ In r (x :: l) -> List.length l < fuel ->
  container_ring.Do_loop fuel m r (Some x) acc
  = Some (ret (acc ++ map (val m) (x :: l))).
Proof.
  induction l as [| y l IH]; intros x fuel acc Hseg Hnot Hfuel;
    (destruct fuel as [| fuel]; [simpl in Hfuel; lia |]); simpl in *.
  - destruct Hseg as [Hn _].
    assert (Hx : x <> r) by tauto. apply Nat.eqb_neq in Hx. rewrite Hx.
    unfold nxt, val in *. destruct (nth_error m x); [| discriminate].
    rewrite Hn. destruct fuel; simpl; now rewrite Nat.eqb_refl.
  - destruct Hseg as (Hn & _ & Hseg).
    assert (Hx : x <> r) by tauto. apply Nat.eqb_neq in Hx. rewrite Hx.
    unfold nxt in Hn. unfold val at 1.
    destruct (nth_error m x); [| discriminate].
    rewrite Hn. rewrite (IH y fuel); [| exact Hseg | tauto | lia].
    now rewrite <- app_assoc.
Qed.

Lemma Do_cycle (r : Ring) (a : nat) (l : list nat) (fuel : nat) :
  cur r = Some a -> cycle (heap r) a l -> List.length l <= fuel ->
  Do fuel r
  = Some (ret (r, map (fun u => as_Source (val (heap r) u)) (a :: l))).
Proof.
  intros Hcur [Hnd Hseg] Hfuel.
  unfold Do, container_ring.Do, container_ring.Next. rewrite Hcur.
  apply NoDup_cons_iff in Hnd as [Hnot Hnd].
  destruct l as [| x l]; simpl in Hseg; cbn [map].
  - destruct Hseg as [Hn _]. unfold nxt, val in *.
    destruct (nth_error (heap r) a); [| discriminate]. rewrite Hn.
    assert (Hstop : container_ring.Do_loop fuel (heap r) a (Some a)
                      [container_ring.Value n]
                    = Some (ret [container_ring.Value n]))
      by (destruct fuel; simpl; now rewrite Nat.eqb_refl).
    rewrite Hstop, <- Hcur, at_node_eta'. reflexivity.
  - destruct Hseg as (Hn & _ & Hseg).
    assert (Hloop : forall acc,
               container_ring.Do_loop fuel (heap r) a (Some x) acc
               = Some (ret (acc ++ map (val (heap r)) (x :: l)))).
    { intros acc. apply Do_loop_seg; [exact Hseg | exact Hnot |].
      simpl in Hfuel. lia. }
    unfold nxt in Hn. unfold val at 1.
    destruct (nth_error (heap r) a); [| discriminate]. rewrite Hn, Hloop.
    rewrite <- Hcur, at_node_eta'. cbn [app map].
    now rewrite !map_map.
Qed.

Lemma map_seq_from {A : Type} (len : nat) :
  forall (f : nat -> A) a,
  map f (seq a len) = map (fun i => f (a + i)) (seq 0 len).
Proof.
  induction len as [| len IH]; intros f a; simpl; [reflexivity |].
  rewrite Nat.add_0_r. f_equal.
  rewrite (IH f (S a)), (IH (fun i => f (a + i)) 1).
  apply map_ext. intros i. f_equal. lia.
Qed.

Lemma map_nth_sub {A : Type} (l : list A) (d : A) (a len : nat) :
  a + len <= List.length l ->
  map (fun i => nth i l d) (seq a len) = firstn len (skipn a l).
Proof.
  intros Hlen.
  assert (Hl : List.length (firstn len (skipn a l)) = len)
    by (rewrite length_firstn, length_skipn; lia).
  rewrite <- (map_nth_seq (firstn len (skipn a l)) d), Hl.
  rewrite map_seq_from. apply map_ext_in. intros i Hi. apply in_seq in Hi.
  rewrite nth_firstn, nth_skipn.
  destruct (Nat.ltb_spec i len); [reflexivity | lia].
Qed.

Lemma walk_next_linked (k : nat) (m : container_ring.mem) (j : nat) :
  linked k m -> forall c, c < k ->
  container_ring.walk container_ring.next j m (Some c)
  = ret (Some ((c + j) mod k)).
Proof.
  intros Hl. induction j as [| j IH]; intros c Hc; simpl.
  - now rewrite Nat.add_0_r, Nat.mod_small.
  - destruct (linked_nxt k m c Hl Hc) as [Hn _]. unfold nxt in Hn.
    destruct (nth_error m c); [| discriminate]. rewrite Hn.
    rewrite IH by (apply Nat.mod_upper_bound; lia).
    rewrite Nat.Div0.add_mod_idemp_l. do 3 f_equal. lia.
Qed.

Lemma Next_nxt (m : container_ring.mem) (a b : nat) :
  nxt m a = Some b -> container_ring.Next m (Some a) = ret (m, Some b).
Proof.
  unfold nxt, container_ring.Next. intros H.
  destruct (nth_error m a); [| discriminate]. now rewrite H.
Qed.

Lemma Prev_prv (m : container_ring.mem) (a b : nat) (p : option nat) :
  nxt m a = Some b -> prv m a = p ->
  container_ring.Prev m (Some a) = ret (m, p).
Proof.
  unfold nxt, prv, container_ring.Prev. intros H1 H2.
  destruct (nth_error m a); [| discriminate]. now rewrite H1, H2.
Qed.

(** The four assignments of [Link], on nodes that exist. *)
Lemma Link_links (m : container_ring.mem) (r s n p : nat) (x y : nat) :
  nxt m r = Some n -> nxt m s = Some x -> prv m s = Some p ->
  r < List.length m -> s < List.length m ->
  n < List.length m -> p < List.length m ->
  exists m',
    container_ring.Link m (Some r) (Some s) = ret (m', Some n) /\
    List.length m' = List.length m /\
    (forall u, val m' u = val m u) /\
    (forall u, nxt m' u = if Nat.eqb u p then Some n
                          else if Nat.eqb u r then Some s else nxt m u) /\
    (forall u, prv m' u = if Nat.eqb u n then Some p
                          else if Nat.eqb u s then Some r else prv m u).
Proof.
  intros Hrn Hsx Hsp Hr Hs Hn Hp.
  unfold container_ring.Link.
  rewrite (Next_nxt m r n Hrn). cbn [bind].
  rewrite (Prev_prv m s x (Some p) Hsx Hsp). cbn [bind].
  rewrite store_ok by exact Hr. cbn [bind].
  rewrite store_ok by (rewrite length_update; exact Hs). cbn [bind].
  rewrite store_ok by (rewrite !length_update; exact Hn). cbn [bind].
  rewrite store_ok by (rewrite !length_update; exact Hp). cbn [bind].
  eexists. split; [reflexivity |].
  split; [now rewrite !length_update |].
  split; [| split]; intros u.
  - rewrite !val_update_links; reflexivity.
  - rewrite nxt_set_next by (rewrite !length_update; exact Hp).
    rewrite !nxt_set_prev. rewrite nxt_set_next by exact Hr. reflexivity.
  - rewrite prv_set_next.
    rewrite prv_set_prev by (rewrite !length_update; exact Hn).
    rewrite prv_set_prev by (rewrite !length_update; exact Hs).
    rewrite prv_set_next. reflexivity.
Qed.

Lemma mem_ext (m1 m2 : container_ring.mem) :
  List.length m1 = List.length m2 ->
  (forall u, nxt m1 u = nxt m2 u) ->
  (forall u, prv m1 u = prv m2 u) ->
  (forall u, val m1 u = val m2 u) ->
  m1 = m2.
Proof.
  intros Hlen Hn Hp Hv. apply nth_error_ext. intros u.
  specialize (Hn u). specialize (Hp u). specialize (Hv u).
  unfold nxt, prv, val in *.
  destruct (nth_error m1 u) as [[n1 p1 v1] |] eqn:E1;
    destruct (nth_error m2 u) as [[n2 p2 v2] |] eqn:E2;
    simpl in *; try congruence.
  - apply nth_error_None in E2.
    assert (u < List.length m1) by (apply nth_error_Some; congruence). lia.
  - apply nth_error_None in E1.
    assert (u < List.length m2) by (apply nth_error_Some; congruence). lia.
Qed.

(** [Unlink n] at the start of a ring of [k > n] linked nodes: what the
    links are afterwards. *)
Lemma Unlink_linked (k n : nat) (r : Ring) :
  at_node k r 0 -> 0 < n -> n < k ->
  exists m',
    Unlink (Z.of_nat n) r = ret (mkRing m' (Some 0), mkRing m' (Some 1)) /\
    List.length m' = k /\
    (forall u, val m' u = val (heap r) u) /\
    (forall u, nxt m' u = if Nat.eqb u n then Some 1
                          else if Nat.eqb u 0 then Some (S n mod k)
                               else nxt (heap r) u) /\
    (forall u, prv m' u = if Nat.eqb u 1 then Some n
                          else if Nat.eqb u (S n mod k) then Some 0
                               else prv (heap r) u).
Proof.
  intros Hat Hn Hnk. pose proof Hat as (Hl & Hcur & _).
  pose proof Hl as [Hlen _].
  set (m := heap r) in *. set (s := S n mod k).
  assert (Hs : s < k) by (apply Nat.mod_upper_bound; lia).
  destruct (linked_nxt k m 0 Hl) as [Hn0 _]; [lia |].
  rewrite (Nat.mod_small 1 k) in Hn0 by lia.
  destruct (linked_nxt k m s Hl Hs) as [Hns Hps].
  assert (Hpn : (s + k - 1) mod k = n).
  { unfold s. destruct (Nat.eq_dec (S n) k) as [E | NE].
    - rewrite E, Nat.Div0.mod_same.
      replace (0 + k - 1) with n by lia. apply Nat.mod_small; lia.
    - rewrite (Nat.mod_small (S n) k) by lia.
      replace (S n + k - 1) with (n + 1 * k) by lia.
      rewrite Nat.Div0.mod_add. apply Nat.mod_small; lia. }
  rewrite Hpn in Hps.
  destruct (Link_links m 0 s 1 n (S s mod k) 0 Hn0 Hns Hps)
    as (m' & HLink & Hlen' & Hval & Hnxt & Hprv); try lia.
  exists m'. split; [| split; [lia | split; [exact Hval | split]]].
  - unfold Unlink, container_ring.Unlink.
    destruct (Z.leb_spec (Z.of_nat n) 0) as [Hle | _]; [lia |].
    unfold container_ring.Move. rewrite Hcur.
    unfold nxt in Hn0. destruct (nth_error m 0) as [nd |] eqn:E0;
      [| discriminate].
    fold m. rewrite E0, Hn0.
    destruct (Z.ltb_spec (Z.of_nat n + 1) 0) as [Hneg | _]; [lia |].
    destruct (Z.ltb_spec 0 (Z.of_nat n + 1)) as [_ | Hnp]; [| lia].
    replace (Z.to_nat (Z.of_nat n + 1)) with (S n) by lia.
    rewrite (walk_next_linked k m (S n) Hl 0) by lia.
    cbn [bind fst snd]. change (0 + S n) with (S n). fold s.
    rewrite HLink. reflexivity.
  - exact Hnxt.
  - exact Hprv.
Qed.

Lemma val_of_values (k : nat) (m : container_ring.mem)
                     (ss : list (option core.Source)) (u : nat) :
  (forall i, i < k -> exists nd, nth_error m i = Some nd /\
     container_ring.Value nd = nth i (map as_any ss) any_nil) ->
  u < k -> as_Source (val m u) = nth u ss None.
Proof.
  intros Hvals Hu. destruct (Hvals u Hu) as (nd & E & Hv).
  unfold val. rewrite E, Hv. change any_nil with (as_any None).
  now rewrite map_nth, as_Source_as_any.
Qed.

(** X20. [Unlink(n)] on the ring built from a list of more than [n]
    sources, [n > 0], takes the [n] sources after the first out of the
    ring: the receiver then enumerates the first source followed by those
    after the removed ones, and the ring returned enumerates the removed
    ones, in order. *)
Theorem Unlink_splits (ss : list (option core.Source)) (n fuel : nat) :
  0 < n -> n < List.length ss -> List.length ss <= fuel ->
  exists r0 r1 rem,
    NewRingSources ss = ret r0 /\
    Unlink (Z.of_nat n) r0 = ret (r1, rem) /\
    Do fuel r1 = Some (ret (r1, hd None ss :: skipn (S n) ss)) /\
    Do fuel rem = Some (ret (rem, firstn n (tl ss))).
Proof.
  intros Hn Hnk Hfuel.
  assert (Hne : ss <> []) by (destruct ss; simpl in *; [lia | discriminate]).
  destruct (NewRingSources_values ss Hne) as (r0 & Hnew & Hat0 & Hvals).
  set (k := List.length ss) in *.
  destruct (Unlink_linked k n r0 Hat0 Hn Hnk)
    as (m' & HU & Hlen' & Hval & Hnxt & Hprv).
  pose proof Hat0 as (Hl & _ & _).
  exists r0, (mkRing m' (Some 0)), (mkRing m' (Some 1)).
  split; [exact Hnew |]. split; [exact HU |].
  assert (Hsrc : forall u, u < k ->
                   as_Source (val m' u) = nth u ss None).
  { intros u Hu. rewrite Hval. now apply (val_of_values k). }
  split.
  - (* the receiver: node 0, then the nodes after the removed ones *)
    assert (Hcyc : cycle m' 0 (seq (S n) (k - S n))).
    { split.
      - apply NoDup_cons; [| apply seq_NoDup].
        intros Hin. apply in_seq in Hin. lia.
      - destruct (Nat.eq_dec (S n) k) as [E | NE].
        + replace (k - S n) with 0 by lia. simpl.
          rewrite Hnxt, Hprv. rewrite E, Nat.Div0.mod_same.
          destruct (Nat.eqb_spec 0 n); [lia |]. simpl. auto.
        + replace (k - S n) with (S (k - S n - 1)) by lia.
          cbn [seq seg]. rewrite Hnxt, Hprv.
          rewrite (Nat.mod_small (S n) k) by lia.
          destruct (Nat.eqb_spec 0 n); [lia |].
          destruct (Nat.eqb_spec (S n) 1); [lia |].
          simpl. rewrite ?Nat.eqb_refl.
          split; [reflexivity |]. split; [reflexivity |].
          apply (seg_frame (heap r0)).
          * intros u Hu. rewrite Hnxt.
            assert (S n <= u)
              by (destruct Hu as [<- | Hu]; [lia | apply in_seq in Hu; lia]).
            destruct (Nat.eqb_spec u n); [lia |].
            destruct (Nat.eqb_spec u 0); [lia | reflexivity].
          * intros u Hu. rewrite Hprv.
            rewrite (Nat.mod_small (S n) k) by lia.
            apply in_app_iff in Hu as [Hu | [<- | []]].
            -- apply in_seq in Hu.
               destruct (Nat.eqb_spec u 1); [lia |].
               destruct (Nat.eqb_spec u (S n)); [lia | reflexivity].
            -- reflexivity.
          * apply (linked_seg_home k); [exact Hl | lia]. }
    rewrite (Do_cycle (mkRing m' (Some 0)) 0 _ fuel eq_refl Hcyc)
      by (rewrite length_seq; lia).
    do 3 f_equal. cbn [map heap]. f_equal.
    + rewrite Hsrc by lia. destruct ss; [contradiction | reflexivity].
    + rewrite (map_ext_in _ (fun u => nth u ss None)).
      * rewrite map_nth_sub by (fold k; lia).
        apply firstn_all2. rewrite length_skipn. fold k. lia.
      * intros u Hu. apply in_seq in Hu. apply Hsrc. lia.
  - (* the removed ring: nodes 1 to n *)
    assert (Hcyc : cycle m' 1 (seq 2 (n - 1))).
    { split.
      - apply NoDup_cons; [| apply seq_NoDup].
        intros Hin. apply in_seq in Hin. lia.
      - destruct (Nat.eq_dec n 1) as [E | NE].
        + subst n. simpl. rewrite Hnxt, Hprv. simpl. auto.
        + replace (n - 1) with (S (n - 2)) by lia.
          rewrite seq_S. replace (2 + (n - 2)) with n by lia.
          apply seg_snoc.
          * apply (seg_frame (heap r0)).
            -- intros u Hu. rewrite Hnxt.
               assert (1 <= u < n)
                 by (destruct Hu as [<- | Hu];
                     [lia | apply in_seq in Hu; lia]).
               destruct (Nat.eqb_spec u n); [lia |].
               destruct (Nat.eqb_spec u 0); [lia | reflexivity].
            -- intros u Hu. rewrite Hprv.
               assert (2 <= u <= n).
               { apply in_app_iff in Hu as [Hu | [<- | []]];
                   [apply in_seq in Hu |]; lia. }
               destruct (Nat.eqb_spec u 1); [lia |].
               destruct (Nat.eqb_spec u (S n mod k)) as [E | _];
                 [| reflexivity].
               exfalso. destruct (Nat.eq_dec (S n) k) as [E' | NE'].
               ++ rewrite E', Nat.Div0.mod_same in E. lia.
               ++ rewrite Nat.mod_small in E by lia. lia.
            -- replace n with (S (1 + (n - 2))) at 2 by lia.
               apply (linked_seg_up k); [exact Hl | lia].
          * rewrite Hnxt, Nat.eqb_refl. reflexivity.
          * rewrite Hprv. reflexivity. }
    rewrite (Do_cycle (mkRing m' (Some 1)) 1 _ fuel eq_refl Hcyc)
      by (rewrite length_seq; lia).
    do 3 f_equal. cbn [heap].
    change (1 :: seq 2 (n - 1)) with (seq 1 (S (n - 1))).
    replace (S (n - 1)) with n by lia.
    rewrite (map_ext_in _ (fun u => nth u ss None)).
    + rewrite map_nth_sub by (fold k; lia).
      destruct ss; reflexivity.
    + intros u Hu. apply in_seq in Hu. apply Hsrc. lia.
Qed.

Lemma Unlink_splits_witness :
  exists r0 r1 rem,
    NewRingSources [Some (mkSource "A" 1); Some (mkSource "B" 2);
                    Some (mkSource "C" 3); Some (mkSource "D" 4)] = ret r0 /\
    Unlink 2 r0 = ret (r1, rem) /\
    Do 4 r1 = Some (ret (r1, [Some (mkSource "A" 1); Some (mkSource "D" 4)])) /\
    Do 4 rem = Some (ret (rem, [Some (mkSource "B" 2);
                                Some (mkSource "C" 3)])).
Proof.
  apply (Unlink_splits
           [Some (mkSource "A" 1); Some (mkSource "B" 2);
            Some (mkSource "C" 3); Some (mkSource "D" 4)] 2 4);
    simpl; lia.
Defined.

(** X21. Putting back with [Link] what [Unlink(n)] has removed restores
    the ring: the memory is as before, and the cursor has moved [n + 1]
    positions forward, as after that many calls of [Next]. *)
Theorem Unlink_then_Link (ss : list (option core.Source)) (n : nat) :
  0 < n -> n < List.length ss ->
  exists r0,
    NewRingSources ss = ret r0 /\
    (x <- Unlink (Z.of_nat n) r0 ;; Link (cur (snd x)) (fst x))
    = iter_go (S n) Next r0.
Proof.
  intros Hn Hnk.
  assert (Hne : ss <> []) by (destruct ss; simpl in *; [lia | discriminate]).
  destruct (NewRingSources_values ss Hne) as (r0 & Hnew & Hat0 & _).
  set (k := List.length ss) in *.
  destruct (Unlink_linked k n r0 Hat0 Hn Hnk)
    as (m' & HU & Hlen' & Hval & Hnxt & Hprv).
  pose proof Hat0 as (Hl & _ & _). pose proof Hl as [Hlen _].
  exists r0. split; [exact Hnew |].
  rewrite HU. cbn [bind fst snd cur].
  set (s := S n mod k) in *.
  assert (Hs : s < k) by (apply Nat.mod_upper_bound; lia).
  assert (H0 : nxt m' 0 = Some s).
  { rewrite Hnxt. destruct (Nat.eqb_spec 0 n); [lia | reflexivity]. }
  assert (H1 : exists x, nxt m' 1 = Some x).
  { rewrite Hnxt. destruct (Nat.eqb 1 n); [eauto |]. simpl.
    destruct (linked_nxt k (heap r0) 1 Hl) as [E _]; [lia | eauto]. }
  destruct H1 as (x & H1).
  assert (Hp1 : prv m' 1 = Some n) by (rewrite Hprv; reflexivity).
  destruct (Link_links m' 0 1 s n x 0 H0 H1 Hp1)
    as (m'' & HLink & Hlen'' & Hval' & Hnxt' & Hprv'); try lia.
  unfold Link. cbn [heap cur]. rewrite HLink. cbn [bind fst snd].
  rewrite (iter_Next_at_node k (S n) r0 0 Hat0). cbn [Nat.add]. fold s.
  do 2 f_equal. apply mem_ext.
  - lia.
  - intros u. rewrite Hnxt', Hnxt.
    destruct (Nat.eqb_spec u n) as [-> | Hun].
    + destruct (linked_nxt k (heap r0) n Hl Hnk) as [E _]. now rewrite E.
    + destruct (Nat.eqb_spec u 0) as [-> | Hu0]; [| reflexivity].
      destruct (linked_nxt k (heap r0) 0 Hl) as [E _]; [lia |].
      rewrite E. now rewrite Nat.mod_small by lia.
  - assert (Hps : (s + k - 1) mod k = n).
    { unfold s. destruct (Nat.eq_dec (S n) k) as [E | NE].
      - rewrite E, Nat.Div0.mod_same.
        replace (0 + k - 1) with n by lia. apply Nat.mod_small; lia.
      - rewrite (Nat.mod_small (S n) k) by lia.
        replace (S n + k - 1) with (n + 1 * k) by lia.
        rewrite Nat.Div0.mod_add. apply Nat.mod_small; lia. }
    intros u. rewrite Hprv', Hprv.
    destruct (Nat.eqb_spec u s) as [-> | Hus].
    + destruct (linked_nxt k (heap r0) s Hl Hs) as [_ E].
      now rewrite E, Hps.
    + destruct (Nat.eqb_spec u 1) as [-> | Hu1]; [| reflexivity].
      destruct (linked_nxt k (heap r0) 1 Hl) as [_ E]; [lia |].
      rewrite E. replace (1 + k - 1) with (0 + 1 * k) by lia.
      rewrite Nat.Div0.mod_add. now rewrite Nat.mod_small by lia.
  - intros u. now rewrite Hval', Hval.
Qed.

Lemma Unlink_then_Link_witness :
  exists r0,
    NewRingSources [Some (mkSource "A" 1); Some (mkSource "B" 2);
                    Some (mkSource "C" 3)] = ret r0 /\
    (x <- Unlink 1 r0 ;; Link (cur (snd x)) (fst x)) = iter_go 2 Next r0.
Proof.
  apply (Unlink_then_Link
           [Some (mkSource "A" 1); Some (mkSource "B" 2);
            Some (mkSource "C" 3)] 1); simpl; lia.
Defined.

End RingSurgery.
